(** * Order repository over Redis: a shallow embedding

    The Go package [order] stores orders in Redis through the go-redis
    client: one string key ["order:<id>"] per order and one set ["orders"]
    that indexes the keys.  This file embeds

    - the Redis commands the repository sends (the key space, the replies),
    - the part of the go-redis client the repository calls (typed commands,
      the [TxPipeline] queue and its [Exec]),
    - the five repository methods, statement by statement,

    and then states and proves the properties of the repository. *)

From Stdlib Require Import Ascii.
From stdpp Require Import gmap strings list fin_maps pretty.

Open Scope string_scope.

(** ** Go errors *)

(** The [error] values that flow through the package.  [Errorf format cause]
    is [fmt.Errorf(format + ": %w", cause)]: a wrapper that keeps its cause. *)
Inductive goerr : Type :=
  | redis_Nil                       (* redis.Nil, the nil reply *)
  | RedisError (msg : string)       (* an error reply of the server *)
  | NetError                        (* a transport failure *)
  | JSONError (msg : string)        (* an encoding/json failure *)
  | ErrNotExist                     (* errors.New("order does not exist") *)
  | Errorf (format : string) (cause : goerr).

(** A Go [error] is a possibly nil interface value. *)
Abbreviation error := (option goerr).

#[global] Instance goerr_eq_dec : EqDecision goerr.
Proof. solve_decision. Defined.

(** [errors.Is(err, target)]: walks the chain of [%w] wrappers. *)
Fixpoint errors_Is_chain (err target : goerr) : bool :=
  if decide (err = target) then true
  else match err with
       | Errorf _ cause => errors_Is_chain cause target
       | _ => false
       end.

Definition errors_Is (err : error) (target : goerr) : bool :=
  match err with
  | None => false
  | Some e => errors_Is_chain e target
  end.

(** ** The Redis server *)

(** A key holds a string or a set of strings. *)
Inductive rvalue : Type :=
  | RString (s : string)
  | RSet (members : gset string).

Abbreviation keyspace := (gmap string rvalue).

(** The commands the repository sends.  [SSCAN] always carries [MATCH "*"],
    which accepts every member, so the pattern is not a field; its [COUNT]
    is optional. *)
Inductive command : Type :=
  | SETNX (key value : string)
  | SET_XX (key value : string)
  | GET (key : string)
  | DEL (key : string)
  | SADD (key member : string)
  | SREM (key member : string)
  | SSCAN (key : string) (cursor : N) (count : option Z)
  | MGET (keys : list string).

Inductive reply : Type :=
  | Integer (n : Z)
  | Bulk (s : string)
  | Null
  | Status (s : string)
  | ScanPage (cursor : N) (members : list string)
  | Values (xs : list (option string))
  | Error (msg : string).

Definition WRONGTYPE : string :=
  "WRONGTYPE Operation against a key holding the wrong kind of value".

(** How the server walks a set: from the set, the cursor and the count hint
    to a page of candidates and the next cursor.  Redis leaves the order and
    the page size to the encoding of the set, so the walk is a parameter of
    the server. *)
Definition scan_policy : Type := gset string → N → Z → list string * N.

(** A set in a compact encoding is returned whole by the first call. *)
Definition scan_whole : scan_policy := λ m _ _, (elements m, 0%N).

(** The value [MGET] returns for one key: nil for a missing key and for a key
    that does not hold a string. *)
Definition mget_one (d : keyspace) (key : string) : option string :=
  match d !! key with
  | Some (RString s) => Some s
  | _ => None
  end.

(** One command against the key space. *)
Definition redis_exec (scan : scan_policy) (c : command) (d : keyspace)
  : reply * keyspace :=
  match c with
  | SETNX key value =>
      match d !! key with
      | Some _ => (Integer 0, d)
      | None => (Integer 1, <[key := RString value]> d)
      end
  | SET_XX key value =>
      match d !! key with
      | Some _ => (Status "OK", <[key := RString value]> d)
      | None => (Null, d)
      end
  | GET key =>
      match d !! key with
      | None => (Null, d)
      | Some (RString s) => (Bulk s, d)
      | Some (RSet _) => (Error WRONGTYPE, d)
      end
  | DEL key =>
      match d !! key with
      | Some _ => (Integer 1, delete key d)
      | None => (Integer 0, d)
      end
  | SADD key member =>
      match d !! key with
      | None => (Integer 1, <[key := RSet {[ member ]}]> d)
      | Some (RSet m) =>
          if decide (member ∈ m) then (Integer 0, d)
          else (Integer 1, <[key := RSet (m ∪ {[ member ]})]> d)
      | Some (RString _) => (Error WRONGTYPE, d)
      end
  | SREM key member =>
      match d !! key with
      | None => (Integer 0, d)
      | Some (RSet m) =>
          if decide (member ∈ m) then
            let m' := m ∖ {[ member ]} in
            (Integer 1,
             if decide (m' = ∅) then delete key d else <[key := RSet m']> d)
          else (Integer 0, d)
      | Some (RString _) => (Error WRONGTYPE, d)
      end
  | SSCAN key cursor count =>
      (* without a COUNT the server takes 10; a COUNT below 1 is refused *)
      let n := default 10%Z count in
      if decide (n < 1)%Z then (Error "ERR syntax error", d)
      else
        match d !! key with
        | None => (ScanPage 0 [], d)
        | Some (RSet m) =>
            let '(page, next) := scan m cursor n in
            (ScanPage next (filter (λ x, x ∈ m) page), d)
        | Some (RString _) => (Error WRONGTYPE, d)
        end
  | MGET keys => (Values (mget_one d <$> keys), d)
  end.

(** A batch of commands, one after the other ([MULTI] ... [EXEC]): a command
    that replies with an error does not undo the others. *)
Fixpoint redis_exec_all (scan : scan_policy) (cs : list command) (d : keyspace)
  : list reply * keyspace :=
  match cs with
  | [] => ([], d)
  | c :: cs' =>
      let '(r, d1) := redis_exec scan c d in
      let '(rs, d2) := redis_exec_all scan cs' d1 in
      (r :: rs, d2)
  end.

(** ** The go-redis client

    The repository imports [github.com/redis/go-redis/v9]; what follows is
    the behaviour of that client on the calls the repository makes. *)

(** What happens to one round trip: it goes through, the request is lost
    (nothing runs, the client sees a transport error) or the reply is lost
    (the commands run, the client sees a transport error). *)
Inductive link : Type := Up | DropRequest | DropReply.

(** The server as the client reaches it: the key space, the fate of the
    coming round trips (an exhausted list means [Up]) and the set walk. *)
Record server : Type := Server {
  db : keyspace;
  net : list link;
  sscan_iter : scan_policy;
}.

Definition with_db (srv : server) (d : keyspace) (n : list link) : server :=
  {| db := d; net := n; sscan_iter := sscan_iter srv |}.

(** One round trip that carries the commands [cs]. *)
Definition round_trip (cs : list command) (srv : server)
  : (list reply + goerr) * server :=
  let rest := tail (net srv) in
  match default Up (head (net srv)) with
  | Up =>
      let '(rs, d) := redis_exec_all (sscan_iter srv) cs (db srv) in
      (inl rs, with_db srv d rest)
  | DropRequest => (inr NetError, with_db srv (db srv) rest)
  | DropReply =>
      let '(_, d) := redis_exec_all (sscan_iter srv) cs (db srv) in
      (inr NetError, with_db srv d rest)
  end.

(** The error a typed command reads off its reply.  An error reply is an
    error; a nil reply is [redis.Nil], except for the boolean commands
    ([SetNX], [SetXX]), whose reader turns nil into the value [false]. *)
Definition reply_error (c : command) (r : reply) : error :=
  match r with
  | Error msg => Some (RedisError msg)
  | Null =>
      match c with
      | SETNX _ _ | SET_XX _ _ => None
      | _ => Some redis_Nil
      end
  | _ => None
  end.

(** A command object: [Val()] and [Err()]. *)
Record Cmd (A : Type) : Type := MkCmd { Val : A; Err : error }.
Arguments MkCmd {A} _ _.
Arguments Val {A} _.
Arguments Err {A} _.

Definition read_bool (r : reply) : bool :=
  match r with
  | Integer n => bool_decide (n = 1%Z)
  | Status s => bool_decide (s = "OK")
  | _ => false
  end.

Definition read_string (r : reply) : string :=
  match r with Bulk s => s | _ => EmptyString end.

Definition read_scan (r : reply) : list string * N :=
  match r with ScanPage cursor members => (members, cursor) | _ => ([], 0%N) end.

Definition read_slice (r : reply) : list (option string) :=
  match r with Values xs => xs | _ => [] end.

(** A command sent on the client itself: one round trip, then the reply is
    read into the command object. *)
Definition process {A} (c : command) (read : reply → A) (zero : A)
    (srv : server) : Cmd A * server :=
  match round_trip [c] srv with
  | (inl [r], srv') =>
      (match reply_error c r with
       | Some e => MkCmd zero (Some e)
       | None => MkCmd (read r) None
       end, srv')
  | (inl _, srv') => (MkCmd zero None, srv')
  | (inr e, srv') => (MkCmd zero (Some e), srv')
  end.

(** A [uint64] is a natural number; what is proved for every natural number
    holds below [2 ^ 64]. *)
Abbreviation uint64 := N.

(** [int64(x)] of a [uint64]: the same 64 bits, read with a sign. *)
Definition int64_of_uint64 (x : uint64) : Z :=
  let z := (Z.of_N x mod 2 ^ 64)%Z in
  if decide (z < 2 ^ 63)%Z then z else (z - 2 ^ 64)%Z.

Definition Client_Get (key : string) : server → Cmd string * server :=
  process (GET key) read_string EmptyString.

(** [SetXX] with expiration 0 sends [SET key value XX]. *)
Definition Client_SetXX (key value : string) : server → Cmd bool * server :=
  process (SET_XX key value) read_bool false.

(** [SScan] appends [COUNT] only when [count > 0]. *)
Definition Client_SScan (key : string) (cursor : N) (count : Z)
  : server → Cmd (list string * N) * server :=
  process (SSCAN key cursor (if decide (0 < count)%Z then Some count else None))
          read_scan ([], 0%N).

Definition Client_MGet (keys : list string)
  : server → Cmd (list (option string)) * server :=
  process (MGET keys) read_slice [].

(** *** The transaction pipeline *)

(** [TxPipeline()] is a queue of commands held by the client.  A command
    called on the pipeline is appended to the queue and comes back unsent:
    its value is the zero value and its error is nil.  Only [Exec] sends the
    queue, as one [MULTI] ... [EXEC] round trip. *)
Record Pipeliner : Type := MkPipeliner { queued : list command }.

Definition TxPipeline : Pipeliner := MkPipeliner [].

Definition enqueue {A} (c : command) (zero : A) (p : Pipeliner)
  : Cmd A * Pipeliner :=
  (MkCmd zero None, MkPipeliner (queued p ++ [c])).

(** [SetNX] with expiration 0 queues [SETNX key value]. *)
Definition Pipeliner_SetNX (p : Pipeliner) (key value : string)
  : Cmd bool * Pipeliner := enqueue (SETNX key value) false p.

Definition Pipeliner_Del (p : Pipeliner) (key : string)
  : Cmd Z * Pipeliner := enqueue (DEL key) 0%Z p.

Definition Pipeliner_SAdd (p : Pipeliner) (key member : string)
  : Cmd Z * Pipeliner := enqueue (SADD key member) 0%Z p.

Definition Pipeliner_SRem (p : Pipeliner) (key member : string)
  : Cmd Z * Pipeliner := enqueue (SREM key member) 0%Z p.

Definition Pipeliner_Discard (p : Pipeliner) : Pipeliner := MkPipeliner [].

(** The first error among the commands of a batch. *)
Fixpoint cmdsFirstErr (cs : list command) (rs : list reply) : error :=
  match cs, rs with
  | c :: cs', r :: rs' =>
      match reply_error c r with
      | Some e => Some e
      | None => cmdsFirstErr cs' rs'
      end
  | _, _ => None
  end.

(** [Exec]: an empty queue is not sent; otherwise the queue goes out in one
    round trip and the error is the transport error or the first error among
    the replies. *)
Definition Pipeliner_Exec (p : Pipeliner) (srv : server)
  : error * Pipeliner * server :=
  match queued p with
  | [] => (None, p, srv)
  | cs =>
      match round_trip cs srv with
      | (inl rs, srv') => (cmdsFirstErr cs rs, MkPipeliner [], srv')
      | (inr e, srv') => (Some e, MkPipeliner [], srv')
      end
  end.

(** ** Package model *)

(** Package [model] is not among the sources at hand, so the order type is a
    parameter of the repository: the type, its [OrderID] field, its zero
    value [model.Order{}] and what [json.Marshal] and [json.Unmarshal] do on
    it. *)
Class OrderModel : Type := {
  Order : Type;
  OrderID : Order → uint64;
  Order_zero : Order;
  json_Marshal : Order → string + goerr;
  json_Unmarshal : string → Order + goerr;
}.

(** ** Package order: the repository *)

(** What a call does: it returns, or it panics. *)
Inductive outcome (A : Type) : Type :=
  | Returns (a : A)
  | Panics (msg : string).
Arguments Returns {A} _.
Arguments Panics {A} _.

Record FindAllPage : Type := MkFindAllPage { Size : uint64; Offset : uint64 }.

Section Repository.
Context `{OrderModel}.

Record FindResult : Type :=
  MkFindResult { Orders : list Order; Cursor : uint64 }.

(** [FindResult{}]: a nil slice and cursor 0.  A nil slice and an empty
    slice are both the empty list. *)
Definition FindResult_zero : FindResult := MkFindResult [] 0.

(** [fmt.Sprintf("order:%d", orderID)] *)
Definition orderIDKey (orderID : uint64) : string :=
  "order:" +:+ pretty orderID.

Definition Insert (order : Order) (srv : server) : error * server :=
  match json_Marshal order with
  | inr err => (Some (Errorf "failed to encode order" err), srv)
  | inl data =>
      let key := orderIDKey (OrderID order) in
      let transaction := TxPipeline in
      let '(cmd, transaction) := Pipeliner_SetNX transaction key data in
      match Err cmd with
      | Some err =>
          let transaction := Pipeliner_Discard transaction in
          (Some (Errorf "failed to insert order" err), srv)
      | None =>
          let '(cmd, transaction) := Pipeliner_SAdd transaction "orders" key in
          match Err cmd with
          | Some err =>
              let transaction := Pipeliner_Discard transaction in
              (Some (Errorf "failed to add orders set" err), srv)
          | None =>
              let '(err, transaction, srv) := Pipeliner_Exec transaction srv in
              match err with
              | Some err =>
                  (Some (Errorf "failed to execute transaction" err), srv)
              | None => (None, srv)
              end
          end
      end
  end.

Definition FindByID (id : uint64) (srv : server) : (Order * error) * server :=
  let key := orderIDKey id in
  let '(cmd, srv) := Client_Get key srv in
  let value := Val cmd in
  let err := Err cmd in
  if errors_Is err redis_Nil then ((Order_zero, Some ErrNotExist), srv)
  else
    match err with
    | Some err => ((Order_zero, Some (Errorf "failed to get order" err)), srv)
    | None =>
        match json_Unmarshal value with
        | inr err =>
            ((Order_zero, Some (Errorf "failed to decode order" err)), srv)
        | inl order => ((order, None), srv)
        end
    end.

Definition DeleteByID (id : uint64) (srv : server) : error * server :=
  let key := orderIDKey id in
  let transaction := TxPipeline in
  let '(cmd, transaction) := Pipeliner_Del transaction key in
  let err := Err cmd in
  if errors_Is err redis_Nil then
    let transaction := Pipeliner_Discard transaction in
    (Some ErrNotExist, srv)
  else
    match err with
    | Some err =>
        let transaction := Pipeliner_Discard transaction in
        (Some (Errorf "failed to get order" err), srv)
    | None =>
        let '(cmd, transaction) := Pipeliner_SRem transaction "orders" key in
        match Err cmd with
        | Some err => (Some (Errorf "failed to remove orders set" err), srv)
        | None => (None, srv)
        end
    end.

Definition Update (order : Order) (srv : server) : error * server :=
  match json_Marshal order with
  | inr err => (Some (Errorf "failed to encode order" err), srv)
  | inl data =>
      let key := orderIDKey (OrderID order) in
      let '(cmd, srv) := Client_SetXX key data srv in
      let err := Err cmd in
      if errors_Is err redis_Nil then (Some ErrNotExist, srv)
      else
        match err with
        | Some err => (Some (Errorf "failed to update order" err), srv)
        | None => (None, srv)
        end
  end.

(** The loop of [FindAll] over the values of [MGet]: [x.(string)] panics on
    a nil value; the first value that does not decode ends the loop with
    its error. *)
Fixpoint decode_orders (xs : list (option string))
  : outcome (list Order + goerr) :=
  match xs with
  | [] => Returns (inl [])
  | None :: _ =>
      Panics "interface conversion: interface {} is nil, not string"
  | Some x :: xs' =>
      match json_Unmarshal x with
      | inr err => Returns (inr err)
      | inl order =>
          match decode_orders xs' with
          | Returns (inl orders) => Returns (inl (order :: orders))
          | stop => stop
          end
      end
  end.

Definition FindAll (page : FindAllPage) (srv : server)
  : outcome (FindResult * error) * server :=
  let '(res, srv) :=
    Client_SScan "orders" (Offset page) (int64_of_uint64 (Size page)) srv in
  let '(keys, cursor) := Val res in
  match Err res with
  | Some err =>
      (Returns (FindResult_zero, Some (Errorf "failed to get order IDs" err)),
       srv)
  | None =>
      if decide (length keys = 0) then
        (Returns (MkFindResult [] 0, None), srv)
      else
        let '(cmd, srv) := Client_MGet keys srv in
        let xs := Val cmd in
        match Err cmd with
        | Some err =>
            (Returns (FindResult_zero, Some (Errorf "failed to get orders" err)),
             srv)
        | None =>
            match decode_orders xs with
            | Panics msg => (Panics msg, srv)
            | Returns (inr err) =>
                (Returns (FindResult_zero,
                          Some (Errorf "failed to decode json" err)), srv)
            | Returns (inl orders) =>
                (Returns (MkFindResult orders cursor, None), srv)
            end
        end
  end.

End Repository.

(** ** A model of package model *)

Module OrderJSON.

(** Modelled from the spec: package [model] (the [Order] type and the blob
    that [json.Marshal] and [json.Unmarshal] exchange for it) is missing
    from the sources.  The spec gives an order one numeric field [OrderID]
    and takes every other field as opaque payload, serialized as a
    self-describing structured blob: field-named, not positional, keys
    preserved, field order irrelevant.  Here an order is its identifier and
    a list of named payload fields, and the blob is an object
    [{"order_id":7,"name":"text",...}]. *)
Record order : Type := MkOrder {
  order_id : N;
  payload : list (string * string);
}.

Definition dquote : ascii := "034"%char.
Definition backslash : ascii := "092"%char.

(** A payload text between quotes: a quote and a backslash are escaped. *)
Fixpoint escape (s : string) : string :=
  match s with
  | EmptyString => EmptyString
  | String c rest =>
      if decide (c = dquote ∨ c = backslash)
      then String backslash (String c (escape rest))
      else String c (escape rest)
  end.

Definition quote (s : string) : string :=
  String dquote (escape s +:+ String dquote EmptyString).

Definition encode_field (kv : string * string) : string :=
  "," +:+ quote kv.1 +:+ ":" +:+ quote kv.2.

Fixpoint encode_fields (fs : list (string * string)) : string :=
  match fs with
  | [] => "}"
  | kv :: fs' => encode_field kv +:+ encode_fields fs'
  end.

(** Modelled from the spec: the blob that [json.Marshal] writes for an order
    (package [model] with its field tags is missing).  The fields go by name;
    the identifier is a decimal number, a payload field a quoted text. *)
Definition encode (o : order) : string :=
  "{" +:+ quote "order_id" +:+ ":" +:+ pretty (order_id o)
      +:+ encode_fields (payload o).

(** *** Decoding: tokens first *)

Inductive token : Type :=
  | TLBrace | TRBrace | TColon | TComma
  | TStr (s : string)
  | TNum (n : N).

Inductive lexstate : Type :=
  | LIdle               (* between tokens *)
  | LNum (acc : N)      (* inside a number *)
  | LStr                (* inside a text *)
  | LEsc.               (* after a backslash inside a text *)

Definition is_digit (c : ascii) : bool :=
  bool_decide (48 ≤ nat_of_ascii c ≤ 57)%nat.

Definition digit_val (c : ascii) : N := N.of_nat (nat_of_ascii c - 48)%nat.

(** The character [c] goes in front of the text that is being read. *)
Definition push_char (c : ascii) (ts : list token) : option (list token) :=
  match ts with
  | TStr s :: ts' => Some (TStr (String c s) :: ts')
  | _ => None
  end.

(** The number that ends where a token starts. *)
Definition flush (st : lexstate) (ts : list token) : list token :=
  match st with
  | LNum n => TNum n :: ts
  | _ => ts
  end.

Definition pending (st : lexstate) : N :=
  match st with
  | LNum n => n
  | _ => 0%N
  end.

Fixpoint lex (st : lexstate) (s : string) : option (list token) :=
  match s with
  | EmptyString =>
      match st with
      | LIdle | LNum _ => Some (flush st [])
      | LStr | LEsc => None
      end
  | String c rest =>
      match st with
      | LStr =>
          if decide (c = dquote) then cons (TStr EmptyString) <$> lex LIdle rest
          else if decide (c = backslash) then lex LEsc rest
          else lex LStr rest ≫= push_char c
      | LEsc => lex LStr rest ≫= push_char c
      | LIdle | LNum _ =>
          if is_digit c then lex (LNum (10 * pending st + digit_val c)) rest
          else if decide (c = dquote) then flush st <$> lex LStr rest
          else if decide (c = "{"%char) then
            flush st <$> (cons TLBrace <$> lex LIdle rest)
          else if decide (c = "}"%char) then
            flush st <$> (cons TRBrace <$> lex LIdle rest)
          else if decide (c = ":"%char) then
            flush st <$> (cons TColon <$> lex LIdle rest)
          else if decide (c = ","%char) then
            flush st <$> (cons TComma <$> lex LIdle rest)
          else None
      end
  end.

(** *** Decoding: from tokens to fields *)

Inductive jvalue : Type := JNum (n : N) | JStr (s : string).

Definition value_of (t : token) : option jvalue :=
  match t with
  | TNum n => Some (JNum n)
  | TStr s => Some (JStr s)
  | _ => None
  end.

Fixpoint parse_fields (ts : list token) : option (list (string * jvalue)) :=
  match ts with
  | TStr k :: TColon :: t :: TRBrace :: [] =>
      v ← value_of t; Some [(k, v)]
  | TStr k :: TColon :: t :: TComma :: rest =>
      v ← value_of t; fs ← parse_fields rest; Some ((k, v) :: fs)
  | _ => None
  end.

Definition parse_object (ts : list token) : option (list (string * jvalue)) :=
  match ts with
  | [TLBrace; TRBrace] => Some []
  | TLBrace :: rest => parse_fields rest
  | _ => None
  end.

(** The fields fill the zero order by name, wherever they stand: the field
    [order_id] must be a number that fits 64 bits, any other field a text. *)
Fixpoint fill (fs : list (string * jvalue)) : option order :=
  match fs with
  | [] => Some (MkOrder 0 [])
  | (k, v) :: fs' =>
      o ← fill fs';
      if decide (k = "order_id") then
        match v with
        | JNum n =>
            if decide (n < 2 ^ 64)%N then Some (MkOrder n (payload o)) else None
        | JStr _ => None
        end
      else
        match v with
        | JStr s => Some (MkOrder (order_id o) ((k, s) :: payload o))
        | JNum _ => None
        end
  end.

(** Modelled from the spec: what [json.Unmarshal] reads from a blob into a
    zero order (package [model] is missing). *)
Definition decode (blob : string) : option order :=
  ts ← lex LIdle blob; fs ← parse_object ts; fill fs.

(** The tokens and the fields of an encoded payload, for the proofs. *)
Fixpoint field_tokens (fs : list (string * string)) : list token :=
  match fs with
  | [] => [TRBrace]
  | kv :: fs' =>
      TComma :: TStr kv.1 :: TColon :: TStr kv.2 :: field_tokens fs'
  end.

Definition text_field (kv : string * string) : string * jvalue :=
  (kv.1, JStr kv.2).

(** The states in which the lexer is not inside a text. *)
Definition outside_text (st : lexstate) : Prop :=
  match st with
  | LIdle | LNum _ => True
  | LStr | LEsc => False
  end.

(** An order the repository can hold: the identifier fits [uint64] and is
    not zero, and no payload field takes the name of the identifier. *)
Definition valid (o : order) : Prop :=
  (0 < order_id o < 2 ^ 64)%N ∧ ∀ kv, kv ∈ payload o → kv.1 ≠ "order_id".

#[export] Instance model : OrderModel := {|
  Order := order;
  OrderID := order_id;
  Order_zero := MkOrder 0 [];
  json_Marshal o := inl (encode o);
  json_Unmarshal blob :=
    match decode blob with
    | Some o => inl o
    | None => inr (JSONError "invalid order")
    end;
|}.

End OrderJSON.

(** ** What the properties speak about *)

(** The members of the index set ["orders"]: a missing key is the empty set;
    a key that holds a string is no index at all. *)
Definition index_set (d : keyspace) : option (gset string) :=
  match d !! "orders" with
  | None => Some ∅
  | Some (RSet m) => Some m
  | Some (RString _) => None
  end.

(** The dual structure: the storage key of an order is in the index set
    exactly when the key has a primary entry. *)
Definition dual_structure (d : keyspace) : Prop :=
  ∃ m, index_set d = Some m ∧
       ∀ id : N, orderIDKey id ∈ m ↔ is_Some (d !! orderIDKey id).

(** The commands that only read. *)
Definition read_only (c : command) : Prop :=
  match c with
  | GET _ | SSCAN _ _ _ | MGET _ => True
  | _ => False
  end.

(** The coming round trip goes through. *)
Definition link_up (srv : server) : Prop := default Up (head (net srv)) = Up.

(** An order type that [json.Marshal] refuses, as for a struct with a
    channel field. *)
Definition unsupported_model : OrderModel := {|
  Order := N;
  OrderID := λ o, o;
  Order_zero := 0%N;
  json_Marshal := λ _, inr (JSONError "json: unsupported type");
  json_Unmarshal := λ _, inr (JSONError "json: unsupported type");
|}.

(** Concrete stores and orders. *)
Module Sample.
Import OrderJSON.

Definition fresh : server := Server ∅ [] scan_whole.

Definition ann : order := MkOrder 7 [("customer", "ann")].
Definition bob : order := MkOrder 7 [("customer", "bob")].

(** The store after [ann] was inserted. *)
Definition with_ann : server :=
  Server (<["orders" := RSet {[ "order:7" ]}]>
            (<["order:7" := RString (encode ann)]> ∅)) [] scan_whole.

(** An index that names a key without a primary entry. *)
Definition dangling : server :=
  Server (<["orders" := RSet {[ "order:7" ]}]> ∅) [] scan_whole.
End Sample.

#[global] Instance link_eq_dec : EqDecision link.
Proof. solve_decision. Defined.

#[global] Instance link_up_dec (srv : server) : Decision (link_up srv).
Proof. unfold link_up. apply _. Defined.

(** The coming two round trips go through. *)
Definition link_up2 (srv : server) : Prop :=
  link_up srv ∧ default Up (head (tail (net srv))) = Up.

(** The commands that never take a key away. *)
Definition keeps_keys (c : command) : Prop :=
  match c with
  | DEL _ | SREM _ _ => False
  | _ => True
  end.

(** The typing of the store: every order key holds a string, the index is a
    set, and the index names order keys only. *)
Definition well_typed (d : keyspace) : Prop :=
  (∀ (id : N) v, d !! orderIDKey id = Some v → ∃ blob, v = RString blob) ∧
  ∃ m, index_set d = Some m ∧ ∀ k, k ∈ m → ∃ id : N, k = orderIDKey id.

(** A call of one of the five methods, and the server it leaves behind. *)
Section Calls.
Context `{OrderModel}.

Inductive call : Type :=
  | CallInsert (order : Order)
  | CallFindByID (id : uint64)
  | CallDeleteByID (id : uint64)
  | CallUpdate (order : Order)
  | CallFindAll (page : FindAllPage).

Definition after (c : call) (srv : server) : server :=
  match c with
  | CallInsert order => (Insert order srv).2
  | CallFindByID id => (FindByID id srv).2
  | CallDeleteByID id => (DeleteByID id srv).2
  | CallUpdate order => (Update order srv).2
  | CallFindAll page => (FindAll page srv).2
  end.

(** The call is an [Update] that writes under the key [k]. *)
Definition updates (k : string) (c : call) : Prop :=
  match c with
  | CallUpdate order => orderIDKey (OrderID order) = k
  | _ => False
  end.

(** The calls of a list, one after the other. *)
Definition after_all (cs : list call) (srv : server) : server :=
  foldl (λ s c, after c s) srv cs.

End Calls.

(** More concrete stores. *)
Module Sample2.
Import OrderJSON.

(** The store with [ann] behind a link that loses the next request. *)
Definition offline : server :=
  Server (db Sample.with_ann) [DropRequest] scan_whole.

(** A store in which ["orders"] holds a string. *)
Definition mistyped : server :=
  Server (<["orders" := RString "none"]> ∅) [] scan_whole.

(** An empty store behind a link that loses the next reply. *)
Definition lossy : server := Server ∅ [DropReply] scan_whole.

Definition cat : order := MkOrder 8 [("customer", "cat")].
End Sample2.

(** * Properties *)

(** ** Storage keys *)

Lemma orderIDKey_inj (a b : N) : orderIDKey a = orderIDKey b → a = b.
Proof.
  unfold orderIDKey. intros Hab.
  apply (inj (String.append "order:")) in Hab.
  by apply (inj pretty) in Hab.
Qed.

Lemma orderIDKey_not_index (id : N) : orderIDKey id ≠ "orders".
Proof.
  unfold orderIDKey. simpl. intros Hk. discriminate Hk.
Qed.

(** ** The client *)

Lemma round_trip_up (cs : list command) (srv : server) :
  link_up srv →
  round_trip cs srv =
    (inl (redis_exec_all (sscan_iter srv) cs (db srv)).1,
     with_db srv (redis_exec_all (sscan_iter srv) cs (db srv)).2 (tail (net srv))).
Proof.
  unfold link_up, round_trip. intros ->.
  by destruct (redis_exec_all _ _ _).
Qed.

(** A round trip leaves the key space as it was or as the commands make it,
    whatever the client is told. *)
Lemma round_trip_db (cs : list command) (srv : server) :
  db (round_trip cs srv).2 = db srv ∨
  db (round_trip cs srv).2 = (redis_exec_all (sscan_iter srv) cs (db srv)).2.
Proof.
  unfold round_trip.
  destruct (default Up (head (net srv))), (redis_exec_all _ _ _); simpl; auto.
Qed.

Lemma process_db {A} (c : command) (read : reply → A) (zero : A) (srv : server) :
  db (process c read zero srv).2 = db srv ∨
  db (process c read zero srv).2 = (redis_exec (sscan_iter srv) c (db srv)).2.
Proof.
  unfold process.
  pose proof (round_trip_db [c] srv) as Hdb. simpl in Hdb.
  destruct (redis_exec (sscan_iter srv) c (db srv)) as [r d]; simpl in *.
  destruct (round_trip [c] srv) as [[rs|e] srv']; simpl in *; [|done].
  by destruct rs as [|r' [|? ?]].
Qed.

Lemma redis_exec_read_only (scan : scan_policy) (c : command) (d : keyspace) :
  read_only c → (redis_exec scan c d).2 = d.
Proof.
  destruct c; simpl; try done; intros _.
  - by destruct (d !! key) as [[]|].
  - case_decide; [done|]. destruct (d !! key) as [[|m]|]; try done.
    by destruct (scan m cursor _).
Qed.

Lemma process_read_only {A} (c : command) (read : reply → A) (zero : A)
    (srv : server) :
  read_only c → db (process c read zero srv).2 = db srv.
Proof.
  intros Hc. destruct (process_db c read zero srv) as [->| ->]; [done|].
  by apply redis_exec_read_only.
Qed.

(** ** The insert transaction on the key space *)

Lemma insert_batch_effect (scan : scan_policy) (key data : string)
    (d : keyspace) (m : gset string) :
  key ≠ "orders" →
  index_set d = Some m →
  (key ∈ m ↔ is_Some (d !! key)) →
  let d' := (redis_exec_all scan [SETNX key data; SADD "orders" key] d).2 in
  (is_Some (d !! key) ∧ d' = d) ∨
  (d !! key = None ∧ (key ∉ m) ∧
   d' = <["orders" := RSet (m ∪ {[ key ]})]> (<[key := RString data]> d)).
Proof.
  intros Hne Hidx Hiff. unfold index_set in Hidx. simpl.
  destruct (d !! key) as [v|] eqn:Hkey.
  - left. split; [by eexists|].
    assert (key ∈ m) as Hin by (apply Hiff; by eexists).
    destruct (d !! "orders") as [[s|m']|] eqn:Hor; simplify_eq/=;
      first [by rewrite decide_True | set_solver].
  - right. split; [done|].
    assert (key ∉ m) as Hnin.
    { intros Hin. apply Hiff in Hin as [? ?]. done. }
    split; [done|].
    rewrite lookup_insert_ne by done.
    destruct (d !! "orders") as [[s|m']|] eqn:Hor; simplify_eq/=;
      first [by rewrite decide_False | by rewrite (left_id_L ∅ (∪))].
Qed.

Lemma insert_batch_dual (scan : scan_policy) (id : N) (data : string)
    (d : keyspace) :
  dual_structure d →
  dual_structure
    (redis_exec_all scan [SETNX (orderIDKey id) data;
                          SADD "orders" (orderIDKey id)] d).2.
Proof.
  intros (m & Hidx & Hiff).
  destruct (insert_batch_effect scan (orderIDKey id) data d m)
    as [[_ ->]|(Hnone & Hnin & ->)];
    [apply orderIDKey_not_index|done|apply Hiff|by exists m|].
  exists (m ∪ {[ orderIDKey id ]}). split.
  { unfold index_set. by rewrite lookup_insert_eq. }
  intros id'. rewrite lookup_insert_ne by (symmetry; apply orderIDKey_not_index).
  destruct (decide (orderIDKey id' = orderIDKey id)) as [->|Hne].
  - rewrite lookup_insert_eq, elem_of_union, elem_of_singleton.
    split; [by eexists|by right].
  - rewrite lookup_insert_ne by done.
    rewrite <-Hiff, elem_of_union, elem_of_singleton. tauto.
Qed.

(** A set-if-exists on an order key keeps the dual structure. *)
Lemma set_xx_dual (scan : scan_policy) (id : N) (data : string) (d : keyspace) :
  dual_structure d →
  dual_structure (redis_exec scan (SET_XX (orderIDKey id) data) d).2.
Proof.
  intros (m & Hidx & Hiff). simpl.
  destruct (d !! orderIDKey id) as [v|] eqn:Hkey; simpl; [|by exists m].
  exists m. split.
  { unfold index_set in *.
    by rewrite lookup_insert_ne by apply orderIDKey_not_index. }
  intros id'. rewrite Hiff.
  destruct (decide (orderIDKey id = orderIDKey id')) as [<-|Hne].
  - rewrite lookup_insert_eq, Hkey. split; by eexists.
  - by rewrite lookup_insert_ne.
Qed.

(** ** The repository methods, one equation each *)

Section RepositoryFacts.
Context `{OrderModel}.

(** [DeleteByID] queues two commands and never sends them. *)
Lemma DeleteByID_returns_nil (id : N) (srv : server) :
  DeleteByID id srv = (None, srv).
Proof. reflexivity. Qed.

Lemma Insert_sends (order : Order) (data : string) (srv : server) :
  json_Marshal order = inl data →
  Insert order srv =
    let key := orderIDKey (OrderID order) in
    let cs := [SETNX key data; SADD "orders" key] in
    match round_trip cs srv with
    | (inl rs, srv') =>
        (Errorf "failed to execute transaction" <$> cmdsFirstErr cs rs, srv')
    | (inr e, srv') =>
        (Some (Errorf "failed to execute transaction" e), srv')
    end.
Proof.
  intros Hdata. unfold Insert. rewrite Hdata.
  cbn -[cmdsFirstErr round_trip].
  destruct (round_trip _ srv) as [[rs|e] srv']; [|done].
  by destruct (cmdsFirstErr _ rs).
Qed.

Lemma Insert_db (order : Order) (srv : server) :
  db (Insert order srv).2 = db srv ∨
  ∃ data, json_Marshal order = inl data ∧
    db (Insert order srv).2 =
      (redis_exec_all (sscan_iter srv)
         [SETNX (orderIDKey (OrderID order)) data;
          SADD "orders" (orderIDKey (OrderID order))] (db srv)).2.
Proof.
  destruct (json_Marshal order) as [data|e] eqn:Hdata.
  - rewrite (Insert_sends _ _ _ Hdata). cbv zeta.
    destruct (round_trip_db
                [SETNX (orderIDKey (OrderID order)) data;
                 SADD "orders" (orderIDKey (OrderID order))] srv) as [Hdb|Hdb].
    + left. by destruct (round_trip _ srv) as [[rs|e] srv'].
    + right. exists data. split; [done|].
      by destruct (round_trip _ srv) as [[rs|e] srv'].
  - left. unfold Insert. by rewrite Hdata.
Qed.

Lemma Update_sends (order : Order) (data : string) (srv : server) :
  json_Marshal order = inl data →
  (Update order srv).2 =
    (Client_SetXX (orderIDKey (OrderID order)) data srv).2.
Proof.
  intros Hdata. unfold Update. rewrite Hdata.
  destruct (Client_SetXX _ data srv) as [cmd srv']. simpl.
  destruct (errors_Is (Err cmd) redis_Nil); [done|].
  by destruct (Err cmd).
Qed.

Lemma Update_db (order : Order) (srv : server) :
  db (Update order srv).2 = db srv ∨
  ∃ data, json_Marshal order = inl data ∧
    db (Update order srv).2 =
      (redis_exec (sscan_iter srv)
         (SET_XX (orderIDKey (OrderID order)) data) (db srv)).2.
Proof.
  destruct (json_Marshal order) as [data|e] eqn:Hdata.
  - rewrite (Update_sends _ _ _ Hdata). unfold Client_SetXX.
    destruct (process_db (SET_XX (orderIDKey (OrderID order)) data)
                read_bool false srv) as [Hdb|Hdb]; [by left|].
    right. by exists data.
  - left. unfold Update. by rewrite Hdata.
Qed.

(** A stored value survives every [Insert] under its key: [SETNX] does not
    write over it, whatever the link does. *)
Lemma Insert_keeps_stored_value (order : Order) (v : rvalue) (srv : server) :
  db srv !! orderIDKey (OrderID order) = Some v →
  db (Insert order srv).2 !! orderIDKey (OrderID order) = Some v.
Proof.
  intros Hkey.
  destruct (Insert_db order srv) as [->|(data & _ & ->)]; [done|].
  simpl. rewrite Hkey.
  assert ("orders" ≠ orderIDKey (OrderID order)) as Hne.
  { intros Heq. by apply (orderIDKey_not_index (OrderID order)). }
  destruct (db srv !! "orders") as [[?|m]|]; simpl; [done| |].
  - case_decide; simpl; [done|]. by rewrite lookup_insert_ne.
  - by rewrite lookup_insert_ne.
Qed.

(** [Update] of an order without an entry leaves the key space as it was,
    whatever the link does. *)
Lemma Update_absent_creates_nothing (order : Order) (srv : server) :
  db srv !! orderIDKey (OrderID order) = None →
  db (Update order srv).2 = db srv.
Proof.
  intros Hkey.
  destruct (Update_db order srv) as [->|(data & _ & ->)]; [done|].
  simpl. by rewrite Hkey.
Qed.

(** A nil among the values of [MGet] never lets the loop of [FindAll] return
    orders: the loop panics at the nil, unless a blob before it does not
    decode. *)
Lemma decode_orders_nil (xs : list (option string)) :
  None ∈ xs →
  (∃ msg, decode_orders xs = Panics msg) ∨
  (∃ e, decode_orders xs = Returns (inr e)).
Proof.
  induction xs as [|x xs IH]; intros Hin.
  - by apply elem_of_nil in Hin.
  - destruct x as [blob|]; simpl; [|left; by eexists].
    apply elem_of_cons in Hin as [Hin|Hin]; [done|].
    destruct (json_Unmarshal blob) as [order|e]; [|right; by eexists].
    destruct (IH Hin) as [[msg ->]|[e ->]]; [left|right]; by eexists.
Qed.

Lemma FindByID_db (id : N) (srv : server) :
  db (FindByID id srv).2 = db srv.
Proof.
  unfold FindByID, Client_Get.
  pose proof (process_read_only (GET (orderIDKey id)) read_string
                EmptyString srv I) as Hdb.
  destruct (process _ _ _ srv) as [cmd srv']. simpl in *.
  destruct (errors_Is _ _); [done|].
  destruct (Err cmd); [done|].
  by destruct (json_Unmarshal _).
Qed.

Lemma FindAll_db (page : FindAllPage) (srv : server) :
  db (FindAll page srv).2 = db srv.
Proof.
  unfold FindAll, Client_SScan, Client_MGet.
  set (c := SSCAN _ _ _).
  pose proof (process_read_only c read_scan ([], 0%N) srv I) as Hdb.
  destruct (process c _ _ srv) as [res srv1]. simpl in *.
  destruct (Val res) as [keys cursor].
  destruct (Err res); [done|].
  case_decide; [done|].
  pose proof (process_read_only (MGET keys) read_slice [] srv1 I) as Hdb1.
  destruct (process (MGET keys) _ _ srv1) as [cmd srv2]. simpl in *.
  rewrite <-Hdb, <-Hdb1.
  destruct (Err cmd); [done|].
  by destruct (decode_orders (Val cmd)) as [[?|?]|?].
Qed.

End RepositoryFacts.

(** ** The dual structure *)

Lemma with_ann_dual : dual_structure (db Sample.with_ann).
Proof.
  exists {[ "order:7" ]}. split; [done|]. intros id. simpl.
  rewrite lookup_insert_ne by (symmetry; apply orderIDKey_not_index).
  rewrite elem_of_singleton.
  destruct (decide (id = 7%N)) as [->|Hid].
  - split; [by eexists|done].
  - assert (orderIDKey id ≠ "order:7") as Hne.
    { intros Hk. apply Hid. by apply orderIDKey_inj. }
    rewrite lookup_insert_ne, lookup_empty by done.
    split; [done|by intros [? ?]].
Qed.

(** C5. Every operation of the repository keeps the dual structure: the
    storage key of an order is a member of the index set ["orders"] exactly
    when the key has a primary entry.  And [Insert] changes the two together
    or not at all: it leaves the key space as it was, or the key was both
    without an entry and outside the index and is afterwards both stored and
    indexed. *)
Theorem dual_structure_preserved `{OrderModel} (srv : server) :
  dual_structure (db srv) →
  (∀ order, dual_structure (db (Insert order srv).2)) ∧
  (∀ id, dual_structure (db (FindByID id srv).2)) ∧
  (∀ id, dual_structure (db (DeleteByID id srv).2)) ∧
  (∀ order, dual_structure (db (Update order srv).2)) ∧
  (∀ page, dual_structure (db (FindAll page srv).2)) ∧
  (∀ order m, index_set (db srv) = Some m →
     let key := orderIDKey (OrderID order) in
     let d' := db (Insert order srv).2 in
     d' = db srv ∨
     (db srv !! key = None ∧ (key ∉ m) ∧
      ∃ data, json_Marshal order = inl data ∧
        d' = <["orders" := RSet (m ∪ {[ key ]})]>
               (<[key := RString data]> (db srv)))).
Proof.
  intros Hdual. repeat split.
  - intros order. destruct (Insert_db order srv) as [->|(data & _ & ->)]; [done|].
    by apply insert_batch_dual.
  - intros id. by rewrite FindByID_db.
  - intros id. by rewrite DeleteByID_returns_nil.
  - intros order. destruct (Update_db order srv) as [->|(data & _ & ->)]; [done|].
    by apply set_xx_dual.
  - intros page. by rewrite FindAll_db.
  - intros order m Hidx. cbv zeta.
    destruct (Insert_db order srv) as [->|(data & Hdata & ->)]; [by left|].
    destruct Hdual as (m' & Hidx' & Hiff).
    assert (m' = m) as -> by congruence.
    destruct (insert_batch_effect (sscan_iter srv)
                (orderIDKey (OrderID order)) data (db srv) m)
      as [[_ ->]|(Hnone & Hnin & ->)];
      [apply orderIDKey_not_index|done|apply Hiff|by left|].
    right. split; [done|]. split; [done|]. by exists data.
Qed.

(** The theorem on the store that holds [ann]. *)
Lemma dual_structure_preserved_witness :
  dual_structure (db Sample.with_ann) ∧
  dual_structure (db (@Insert OrderJSON.model Sample.bob Sample.with_ann).2) ∧
  dual_structure (db (DeleteByID 7 Sample.with_ann).2).
Proof.
  pose proof (@dual_structure_preserved OrderJSON.model Sample.with_ann
                with_ann_dual)
    as (Hins & _ & Hdel & _).
  split; [apply with_ann_dual|]. split; [apply Hins|apply Hdel].
Defined.

(** ** Update *)

(** C9. [Update] never changes a storage key.  The key it writes is the one
    derived from the [OrderID] of its argument by the pattern
    [order:<decimal-id>]; the set of keys of the store is the same before and
    after; every other key, the index set and the entry of every other order
    among them, keeps its value; and the entry under the key itself is as it
    was or, when it existed, holds the new blob. *)
Theorem Update_frame `{OrderModel} (order : Order) (srv : server) :
  let key := orderIDKey (OrderID order) in
  let d' := db (Update order srv).2 in
  key = "order:" +:+ pretty (OrderID order) ∧
  dom d' = dom (db srv) ∧
  (∀ k, k ≠ key → d' !! k = db srv !! k) ∧
  (∀ id, id ≠ OrderID order → d' !! orderIDKey id = db srv !! orderIDKey id) ∧
  index_set d' = index_set (db srv) ∧
  (d' !! key = db srv !! key ∨
   ∃ data, json_Marshal order = inl data ∧ is_Some (db srv !! key) ∧
           d' !! key = Some (RString data)).
Proof.
  intros key d'. subst d'. split; [done|].
  assert (∀ k, k ≠ key → db (Update order srv).2 !! k = db srv !! k) as Hframe.
  { intros k Hk.
    destruct (Update_db order srv) as [->|(data & _ & ->)]; [done|]. simpl.
    fold key. destruct (db srv !! key); simpl; [|done].
    by rewrite lookup_insert_ne. }
  destruct (Update_db order srv) as [Hdb|(data & Hdata & Hdb)].
  - rewrite Hdb. repeat split; auto.
  - split; [|split; [done|split; [|split]]].
    + rewrite Hdb. simpl. fold key.
      destruct (db srv !! key) as [v|] eqn:Hkey; simpl; [|done].
      rewrite dom_insert_L.
      apply subseteq_union_1_L, singleton_subseteq_l, elem_of_dom.
      by eexists.
    + intros id Hid. apply Hframe. intros Hk. apply Hid.
      by apply orderIDKey_inj.
    + unfold index_set. rewrite Hframe; [done|].
      symmetry. apply orderIDKey_not_index.
    + rewrite Hdb. simpl. fold key.
      destruct (db srv !! key) as [v|] eqn:Hkey; simpl; [|by left].
      right. exists data. rewrite lookup_insert_eq.
      split; [done|]. split; [by eexists|done].
Qed.

(** ** Encoding failures *)

(** C10. When the order does not serialize, [Insert] and [Update] return the
    encoding error and nothing has been sent: the server (the key space with
    its primary entries and its index set, and the round trips still to
    come) is the same as before the call. *)
Theorem encode_failure_sends_nothing `{OrderModel} (order : Order)
    (e : goerr) (srv : server) :
  json_Marshal order = inr e →
  Insert order srv = (Some (Errorf "failed to encode order" e), srv) ∧
  Update order srv = (Some (Errorf "failed to encode order" e), srv).
Proof.
  intros He. unfold Insert, Update. by rewrite He.
Qed.

(** The theorem for an order type that does not serialize. *)
Lemma encode_failure_sends_nothing_witness :
  @json_Marshal unsupported_model 7%N = inr (JSONError "json: unsupported type") ∧
  @Insert unsupported_model 7%N Sample.with_ann =
    (Some (Errorf "failed to encode order" (JSONError "json: unsupported type")),
     Sample.with_ann) ∧
  @Update unsupported_model 7%N Sample.with_ann =
    (Some (Errorf "failed to encode order" (JSONError "json: unsupported type")),
     Sample.with_ann).
Proof.
  split; [reflexivity|].
  apply (@encode_failure_sends_nothing unsupported_model 7%N). reflexivity.
Defined.

(** ** What the calls return when the link is up *)

Section LinkUp.
Context `{OrderModel}.

(** With the link up and ["orders"] a set, [Insert] of an order that
    serializes returns nil, whether the key was free or taken: the result
    of [SETNX] is a value, and [Insert] looks at errors only. *)
Lemma Insert_link_up (order : Order) (data : string) (srv : server)
    (m : gset string) :
  link_up srv →
  json_Marshal order = inl data →
  index_set (db srv) = Some m →
  (Insert order srv).1 = None.
Proof.
  intros Hup Hdata Hidx.
  rewrite (Insert_sends _ _ _ Hdata). cbv zeta.
  rewrite (round_trip_up _ _ Hup). simpl.
  set (key := orderIDKey (OrderID order)).
  assert (key ≠ "orders") as Hne by apply orderIDKey_not_index.
  unfold index_set in Hidx.
  destruct (db srv !! key) as [v|] eqn:Hkey; simpl.
  - destruct (db srv !! "orders") as [[?|m']|]; simplify_eq/=; [|done].
    by case_decide.
  - rewrite lookup_insert_ne by done.
    destruct (db srv !! "orders") as [[?|m']|]; simplify_eq/=; [|done].
    by case_decide.
Qed.

(** With the link up, [Update] of an order that serializes returns nil
    when the key is absent, and the key space is as before. *)
Lemma Update_absent (order : Order) (data : string) (srv : server) :
  link_up srv →
  json_Marshal order = inl data →
  db srv !! orderIDKey (OrderID order) = None →
  Update order srv = (None, with_db srv (db srv) (tail (net srv))).
Proof.
  intros Hup Hdata Hkey. unfold Update, Client_SetXX, process.
  rewrite Hdata, (round_trip_up _ _ Hup). simpl. by rewrite Hkey.
Qed.

(** With the link up, [FindByID] decodes the blob under the key. *)
Lemma FindByID_present (id : N) (blob : string) (order : Order)
    (srv : server) :
  link_up srv →
  db srv !! orderIDKey id = Some (RString blob) →
  json_Unmarshal blob = inl order →
  FindByID id srv = ((order, None), with_db srv (db srv) (tail (net srv))).
Proof.
  intros Hup Hkey Hblob. unfold FindByID, Client_Get, process.
  rewrite (round_trip_up _ _ Hup). simpl. rewrite Hkey. simpl.
  by rewrite Hblob.
Qed.

End LinkUp.

(** ** The calls on concrete stores *)

(** The calls in turn on an empty store: [Insert] stores and indexes [ann],
    [FindByID] returns it, [Update] with [bob] (same [OrderID]) replaces the
    blob and [FindByID] then returns [bob]. *)
Example insert_find_update :
  let s1 := (@Insert OrderJSON.model Sample.ann Sample.fresh).2 in
  let s2 := (@Update OrderJSON.model Sample.bob s1).2 in
  s1 = Sample.with_ann ∧
  (@FindByID OrderJSON.model 7 s1).1 = (Sample.ann, None) ∧
  (@Update OrderJSON.model Sample.bob s1).1 = None ∧
  (@FindByID OrderJSON.model 7 s2).1 = (Sample.bob, None) ∧
  index_set (db s2) = Some {[ "order:7" ]}.
Proof. repeat split; reflexivity. Qed.

(** C1, on the code.  [ann] is inserted into an empty store and is then
    stored and indexed.  A second [Insert] with the same [OrderID] (another
    payload) leaves the first value in place, and returns nil: no error
    tells the caller that the key was taken. *)
Theorem Insert_twice_returns_nil :
  let r1 := @Insert OrderJSON.model Sample.ann Sample.fresh in
  let r2 := @Insert OrderJSON.model Sample.bob r1.2 in
  r1.1 = None ∧ r1.2 = Sample.with_ann ∧
  r2.1 = None ∧ r2.2 = Sample.with_ann.
Proof. repeat split; reflexivity. Qed.

(** C2, on the code.  [DeleteByID] on the stored order [ann] returns nil and
    the server is untouched: afterwards [FindByID] still returns [ann] and
    [FindAll] still lists it. *)
Theorem DeleteByID_leaves_order :
  let r := DeleteByID 7 Sample.with_ann in
  r.1 = None ∧ r.2 = Sample.with_ann ∧
  (@FindByID OrderJSON.model 7 r.2).1 = (Sample.ann, None) ∧
  (@FindAll OrderJSON.model (MkFindAllPage 10 0) r.2).1 =
    Returns (@MkFindResult OrderJSON.model [Sample.ann] 0, None).
Proof. repeat split; reflexivity. Qed.

(** C3, on the code.  No order is stored under id 7 in the empty store, and
    [DeleteByID 7] returns nil, not [ErrNotExist]. *)
Theorem DeleteByID_absent_returns_nil :
  db Sample.fresh !! orderIDKey 7 = None ∧
  DeleteByID 7 Sample.fresh = (None, Sample.fresh).
Proof. repeat split; reflexivity. Qed.

(** C4, on the code.  The index names ["order:7"], which has no primary
    entry; [MGet] returns nil for it and the type assertion of [FindAll]
    panics: no result and no error reach the caller. *)
Theorem FindAll_dangling_panics :
  index_set (db Sample.dangling) = Some {[ "order:7" ]} ∧
  db Sample.dangling !! "order:7" = None ∧
  (@FindAll OrderJSON.model (MkFindAllPage 10 0) Sample.dangling).1 =
    Panics "interface conversion: interface {} is nil, not string".
Proof. repeat split; reflexivity. Qed.

(** C6, on the code.  No order is stored under id 7 in the empty store;
    [Update] with such an order creates no key, and returns nil, not
    [ErrNotExist]. *)
Theorem Update_absent_returns_nil :
  db Sample.fresh !! orderIDKey 7 = None ∧
  @Update OrderJSON.model Sample.ann Sample.fresh = (None, Sample.fresh).
Proof. repeat split; reflexivity. Qed.

(** ** FindAll without keys *)

Lemma filter_no_member (m : gset string) (page : list string) :
  m = ∅ → filter (λ x, x ∈ m) page = [].
Proof.
  intros ->. induction page as [|x page IH]; [done|].
  rewrite filter_cons_False; [done|]. apply not_elem_of_empty.
Qed.

(** Against an empty index a scan that goes through brings no key and no
    error, whatever the page. *)
Lemma SScan_empty_index (cursor : N) (count : Z) (srv : server) :
  link_up srv →
  index_set (db srv) = Some ∅ →
  Err (Client_SScan "orders" cursor count srv).1 = None ∧
  (Val (Client_SScan "orders" cursor count srv).1).1 = [].
Proof.
  intros Hup Hidx. unfold Client_SScan, process.
  rewrite (round_trip_up _ _ Hup). unfold index_set in Hidx. simpl.
  assert (¬ (default 10 (if decide (0 < count)%Z then Some count else None) < 1)%Z)
    as Hcount by (case_decide; simpl; lia).
  rewrite decide_False by done.
  destruct (db srv !! "orders") as [[?|m]|]; simplify_eq/=; [|done].
  destruct (sscan_iter srv ∅ cursor _) as [page next]. simpl.
  split; [done|]. by apply filter_no_member.
Qed.

(** C7, as the code has it.  Whenever the scan goes through and brings no
    key, [FindAll] returns an empty list of orders, cursor 0 and no error;
    so it does against an empty index set, when the round trip goes
    through.  The page size is not among the conditions. *)
Theorem FindAll_no_keys `{OrderModel} (page : FindAllPage) (srv : server) :
  let scanned :=
    Client_SScan "orders" (Offset page) (int64_of_uint64 (Size page)) srv in
  (Err scanned.1 = None ∧ (Val scanned.1).1 = []) ∨
  (link_up srv ∧ index_set (db srv) = Some ∅) →
  FindAll page srv = (Returns (MkFindResult [] 0, None), scanned.2).
Proof.
  intros scanned Hcase.
  assert (Err scanned.1 = None ∧ (Val scanned.1).1 = []) as [Herr Hkeys].
  { destruct Hcase as [?|[Hup Hidx]]; [done|]. by apply SScan_empty_index. }
  unfold FindAll. fold scanned.
  destruct scanned as [res srv']. simpl in *.
  destruct (Val res) as [keys cursor]. simpl in *.
  by rewrite Herr, Hkeys.
Qed.

(** The theorem on the empty store. *)
Lemma FindAll_no_keys_witness :
  link_up Sample.fresh ∧ index_set (db Sample.fresh) = Some ∅ ∧
  @FindAll OrderJSON.model (MkFindAllPage 5 0) Sample.fresh =
    (Returns (@MkFindResult OrderJSON.model [] 0, None), Sample.fresh).
Proof.
  split; [reflexivity|]. split; [reflexivity|].
  apply (@FindAll_no_keys OrderJSON.model (MkFindAllPage 5 0) Sample.fresh).
  right. split; reflexivity.
Defined.

(** C7, as the specification words it, fails for page size 0: the client
    sends no [COUNT] for a size that is not positive, the server scans with
    its default, and the stored order is listed. *)
Lemma FindAll_size_zero_lists_orders :
  Size (MkFindAllPage 0 0) = 0%N ∧
  (@FindAll OrderJSON.model (MkFindAllPage 0 0) Sample.with_ann).1 =
    Returns (@MkFindResult OrderJSON.model [Sample.ann] 0, None) ∧
  (@FindAll OrderJSON.model (MkFindAllPage 0 0) Sample.with_ann).1 ≠
    Returns (@MkFindResult OrderJSON.model [] 0, None).
Proof.
  split; [reflexivity|].
  assert ((@FindAll OrderJSON.model (MkFindAllPage 0 0) Sample.with_ann).1 =
            Returns (@MkFindResult OrderJSON.model [Sample.ann] 0, None))
    as Hlisted by reflexivity.
  split; [exact Hlisted|]. rewrite Hlisted. intros Heq. discriminate Heq.
Qed.

(** ** The blob of an order *)

Module OrderJSONFacts.
Import OrderJSON.

Lemma app_cons (c : ascii) (s t : string) :
  String c s +:+ t = String c (s +:+ t).
Proof. reflexivity. Qed.

Lemma app_assoc (s t u : string) : (s +:+ t) +:+ u = s +:+ (t +:+ u).
Proof.
  induction s as [|c s IH]; [done|]. by rewrite !app_cons, IH.
Qed.

Lemma pretty_N_go_app (x : N) (s t : string) :
  pretty_N_go x s +:+ t = pretty_N_go x (s +:+ t).
Proof.
  revert s. induction (N.lt_wf_0 x) as [x _ IH]; intros s.
  destruct (decide (x = 0%N)) as [->|Hx]; [by rewrite !pretty_N_go_0|].
  rewrite (pretty_N_go_step x s), (pretty_N_go_step x (s +:+ t)) by lia.
  rewrite IH by (apply N.div_lt; lia). by rewrite app_cons.
Qed.

Lemma digit_char (d : N) :
  (d < 10)%N →
  is_digit (pretty_N_char d) = true ∧ digit_val (pretty_N_char d) = d.
Proof.
  intros Hd.
  assert (d = 0 ∨ d = 1 ∨ d = 2 ∨ d = 3 ∨ d = 4 ∨ d = 5 ∨ d = 6 ∨ d = 7
          ∨ d = 8 ∨ d = 9)%N as Hcases by lia.
  repeat (destruct Hcases as [->|Hcases]; [by split|]). by subst.
Qed.

Lemma lex_digit (st : lexstate) (c : ascii) (rest : string) :
  outside_text st →
  is_digit c = true →
  lex st (String c rest) = lex (LNum (10 * pending st + digit_val c)) rest.
Proof. intros Hst Hc. destruct st; simpl in *; by rewrite ?Hc. Qed.

(** The digits of [x] in front of [s] are read back as [x], on top of the
    number that is being read. *)
Lemma lex_digits (x : N) (s : string) :
  (0 < x)%N →
  ∃ k : N, ∀ st, outside_text st →
    lex st (pretty_N_go x s) = lex (LNum (pending st * 10 ^ k + x)) s.
Proof.
  revert s. induction (N.lt_wf_0 x) as [x _ IH]; intros s Hx.
  rewrite pretty_N_go_step by done.
  destruct (digit_char (x `mod` 10)) as [Hdig Hval];
    [by apply N.mod_lt|].
  destruct (decide (x `div` 10 = 0)%N) as [Hdiv|Hdiv].
  - exists 1%N. intros st Hst. rewrite Hdiv, pretty_N_go_0.
    rewrite lex_digit, Hval by done. do 2 f_equal.
    pose proof (N.div_mod x 10). lia.
  - destruct (IH (x `div` 10)%N) with (s := String (pretty_N_char (x `mod` 10)) s)
      as [k Hk]; [by apply N.div_lt|by apply N.neq_0_lt_0|].
    exists (N.succ k). intros st Hst. rewrite Hk by done.
    rewrite lex_digit, Hval by done. simpl. do 2 f_equal.
    rewrite N.pow_succ_r'. pose proof (N.div_mod x 10). lia.
Qed.

Lemma lex_number (n : N) (rest : string) :
  lex LIdle (pretty n +:+ rest) = lex (LNum n) rest.
Proof.
  unfold pretty, pretty_N. case_decide as Hn.
  - by subst.
  - rewrite pretty_N_go_app.
    destruct (lex_digits n (EmptyString +:+ rest)) as [k Hk]; [lia|].
    by rewrite Hk.
Qed.

(** The four punctuation characters. *)
Lemma lex_punct (st : lexstate) (rest : string) :
  outside_text st →
  lex st (String "{" rest) = flush st <$> (cons TLBrace <$> lex LIdle rest) ∧
  lex st (String "}" rest) = flush st <$> (cons TRBrace <$> lex LIdle rest) ∧
  lex st (String ":" rest) = flush st <$> (cons TColon <$> lex LIdle rest) ∧
  lex st (String "," rest) = flush st <$> (cons TComma <$> lex LIdle rest).
Proof. intros Hst. by destruct st. Qed.

(** An escaped text up to its closing quote. *)
Lemma lex_escape (s rest : string) :
  lex LStr (escape s +:+ String dquote rest) = cons (TStr s) <$> lex LIdle rest.
Proof.
  induction s as [|c s IH]; [done|]. simpl.
  destruct (decide (c = dquote ∨ c = backslash)) as [Hc|Hc].
  - rewrite !app_cons. simpl. rewrite IH.
    by destruct (lex LIdle rest).
  - rewrite app_cons. simpl.
    rewrite !decide_False by tauto. rewrite IH.
    by destruct (lex LIdle rest).
Qed.

Lemma lex_quote (st : lexstate) (s rest : string) :
  outside_text st →
  lex st (quote s +:+ rest) = flush st <$> (cons (TStr s) <$> lex LIdle rest).
Proof.
  intros Hst. unfold quote. rewrite app_cons, app_assoc, app_cons.
  change (EmptyString +:+ rest) with rest.
  rewrite <-lex_escape. by destruct st.
Qed.

Lemma encode_field_app (kv : string * string) (rest : string) :
  encode_field kv +:+ rest =
    String "," (quote kv.1 +:+ String ":" (quote kv.2 +:+ rest)).
Proof.
  unfold encode_field.
  rewrite (app_assoc "," _ rest), (app_assoc (quote kv.1) _ rest).
  by rewrite (app_assoc ":" (quote kv.2) rest).
Qed.

Lemma encode_eq (o : order) :
  encode o =
    String "{" (quote "order_id" +:+
      String ":" (pretty (order_id o) +:+ encode_fields (payload o))).
Proof. reflexivity. Qed.

Lemma lex_fields (st : lexstate) (fs : list (string * string)) :
  outside_text st →
  lex st (encode_fields fs) = Some (flush st (field_tokens fs)).
Proof.
  revert st. induction fs as [|kv fs IH]; intros st Hst.
  - by destruct st.
  - change (encode_fields (kv :: fs)) with
      (encode_field kv +:+ encode_fields fs).
    rewrite encode_field_app.
    destruct (lex_punct st (quote kv.1 +:+ String ":" (quote kv.2 +:+ encode_fields fs))
                Hst) as (_ & _ & _ & ->).
    rewrite (lex_quote LIdle kv.1) by done.
    destruct (lex_punct LIdle (quote kv.2 +:+ encode_fields fs) I)
      as (_ & _ & -> & _).
    rewrite (lex_quote LIdle kv.2) by done. by rewrite (IH LIdle).
Qed.

Lemma lex_encode (o : order) :
  lex LIdle (encode o) =
    Some (TLBrace :: TStr "order_id" :: TColon :: TNum (order_id o)
            :: field_tokens (payload o)).
Proof.
  rewrite encode_eq.
  destruct (lex_punct LIdle
              (quote "order_id" +:+
                 String ":" (pretty (order_id o) +:+ encode_fields (payload o)))
              I) as (-> & _).
  rewrite (lex_quote LIdle "order_id") by done.
  destruct (lex_punct LIdle
              (pretty (order_id o) +:+ encode_fields (payload o)) I)
    as (_ & _ & -> & _).
  by rewrite lex_number, (lex_fields (LNum (order_id o))).
Qed.

Lemma parse_fields_tokens (k : string) (t : token) (v : jvalue)
    (fs : list (string * string)) :
  value_of t = Some v →
  parse_fields (TStr k :: TColon :: t :: field_tokens fs) =
    Some ((k, v) :: (text_field <$> fs)).
Proof.
  revert k t v. induction fs as [|kv fs IH]; intros k t v Hv.
  - simpl. by rewrite Hv.
  - change (field_tokens (kv :: fs)) with
      (TComma :: TStr kv.1 :: TColon :: TStr kv.2 :: field_tokens fs).
    change (parse_fields (TStr k :: TColon :: t :: TComma :: ?rest)) with
      (v' ← value_of t; fs' ← parse_fields rest; Some ((k, v') :: fs')).
    by rewrite Hv, (IH kv.1 (TStr kv.2) (JStr kv.2)).
Qed.

Lemma fill_payload (fs : list (string * string)) :
  (∀ kv, kv ∈ fs → kv.1 ≠ "order_id") →
  fill (text_field <$> fs) = Some (MkOrder 0 fs).
Proof.
  induction fs as [|kv fs IH]; intros Hnames; [done|].
  change (fill (text_field <$> kv :: fs)) with
    (o ← fill (text_field <$> fs);
     if decide (kv.1 = "order_id") then None
     else Some (MkOrder (order_id o) ((kv.1, kv.2) :: payload o))).
  rewrite IH by (intros kv' Hin; apply Hnames; by right).
  simpl. rewrite decide_False by (apply Hnames; by left).
  by destruct kv.
Qed.

Lemma parse_encode (o : order) :
  parse_object (TLBrace :: TStr "order_id" :: TColon :: TNum (order_id o)
                  :: field_tokens (payload o)) =
    Some (("order_id", JNum (order_id o)) :: (text_field <$> payload o)).
Proof.
  rewrite <-(parse_fields_tokens "order_id" (TNum (order_id o))) by done.
  by destruct (payload o).
Qed.

Lemma fill_encode (o : order) :
  valid o →
  fill (("order_id", JNum (order_id o)) :: (text_field <$> payload o)) = Some o.
Proof.
  intros [[_ Hid] Hnames].
  change (fill (?f :: ?fs)) with
    (o' ← fill fs;
     if decide (f.1 = "order_id") then
       match f.2 with
       | JNum n =>
           if decide (n < 2 ^ 64)%N then Some (MkOrder n (payload o')) else None
       | JStr _ => None
       end
     else
       match f.2 with
       | JStr s => Some (MkOrder (order_id o') ((f.1, s) :: payload o'))
       | JNum _ => None
       end).
  rewrite fill_payload by done.
  cbn [mbind option_bind fst snd payload].
  rewrite decide_True by done. rewrite decide_True by done.
  by destruct o.
Qed.

Lemma decode_of_encode (o : order) :
  valid o → decode (encode o) = Some o.
Proof.
  intros Hvalid. unfold decode. rewrite lex_encode.
  cbn [mbind option_bind]. rewrite parse_encode.
  cbn [mbind option_bind]. by apply fill_encode.
Qed.

(** C8.  For every valid order [o], decoding the blob that the encoding of
    [o] produces gives [o] back: [json.Marshal] succeeds with a blob and
    [json.Unmarshal] of that blob is [o]. *)
Theorem decode_encode (o : order) :
  valid o →
  ∃ blob, @json_Marshal model o = inl blob ∧
          @json_Unmarshal model blob = inl o.
Proof.
  intros Hvalid. exists (encode o). split; [reflexivity|].
  cbn [json_Unmarshal model]. by rewrite decode_of_encode.
Qed.

(** The theorem for [ann]. *)
Lemma decode_encode_witness :
  valid Sample.ann ∧
  ∃ blob, @json_Marshal model Sample.ann = inl blob ∧
          @json_Unmarshal model blob = inl Sample.ann.
Proof.
  assert (valid Sample.ann) as Hvalid.
  { split; [by compute|]. intros kv Hin.
    apply list_elem_of_singleton in Hin as ->. by compute. }
  split; [exact Hvalid|]. exact (decode_encode Sample.ann Hvalid).
Defined.

End OrderJSONFacts.

(** * Further properties of the repository *)

(** ** Round trips *)

Lemma round_trip_down (cs : list command) (srv : server) :
  ¬ link_up srv → (round_trip cs srv).1 = inr NetError.
Proof.
  unfold link_up, round_trip. intros Hdown.
  destruct (default Up (head (net srv))); [done|done|].
  by destruct (redis_exec_all _ _ _).
Qed.

Lemma round_trip_rest (cs : list command) (srv : server) :
  net (round_trip cs srv).2 = tail (net srv) ∧
  sscan_iter (round_trip cs srv).2 = sscan_iter srv.
Proof.
  unfold round_trip.
  destruct (default Up (head (net srv)));
    by destruct (redis_exec_all (sscan_iter srv) cs (db srv)).
Qed.

Lemma process_down {A} (c : command) (read : reply → A) (zero : A)
    (srv : server) :
  ¬ link_up srv → (process c read zero srv).1 = MkCmd zero (Some NetError).
Proof.
  intros Hdown. unfold process.
  pose proof (round_trip_down [c] srv Hdown) as Hrt.
  destruct (round_trip [c] srv) as [[rs|e] srv']; simpl in Hrt; by simplify_eq.
Qed.

Lemma process_rest {A} (c : command) (read : reply → A) (zero : A)
    (srv : server) :
  net (process c read zero srv).2 = tail (net srv) ∧
  sscan_iter (process c read zero srv).2 = sscan_iter srv.
Proof.
  unfold process. pose proof (round_trip_rest [c] srv) as Hrt.
  destruct (round_trip [c] srv) as [[rs|e] srv']; simpl in *; [|done].
  by destruct rs as [|r [|? ?]].
Qed.

Lemma process_up {A} (c : command) (read : reply → A) (zero : A)
    (srv : server) :
  link_up srv →
  process c read zero srv =
    (match reply_error c (redis_exec (sscan_iter srv) c (db srv)).1 with
     | Some e => MkCmd zero (Some e)
     | None => MkCmd (read (redis_exec (sscan_iter srv) c (db srv)).1) None
     end,
     with_db srv (redis_exec (sscan_iter srv) c (db srv)).2 (tail (net srv))).
Proof.
  intros Hup. unfold process. rewrite (round_trip_up _ _ Hup). simpl.
  by destruct (redis_exec (sscan_iter srv) c (db srv)).
Qed.

(** ** Storage keys *)

(** X1. Two orders share a storage key exactly when they share their
    [OrderID], and no storage key is the key of the index set. *)
Theorem orderIDKey_separates (a b : uint64) :
  (orderIDKey a = orderIDKey b ↔ a = b) ∧ orderIDKey a ≠ "orders".
Proof.
  split; [split|].
  - apply orderIDKey_inj.
  - by intros ->.
  - apply orderIDKey_not_index.
Qed.

(** ** FindByID *)

Section FindByIDFacts.
Context `{OrderModel}.

(** [FindByID] when the round trip goes through. *)
Lemma FindByID_up (id : uint64) (srv : server) :
  link_up srv →
  FindByID id srv =
    (match db srv !! orderIDKey id with
     | None => (Order_zero, Some ErrNotExist)
     | Some (RString blob) =>
         match json_Unmarshal blob with
         | inl order => (order, None)
         | inr e => (Order_zero, Some (Errorf "failed to decode order" e))
         end
     | Some (RSet _) =>
         (Order_zero, Some (Errorf "failed to get order" (RedisError WRONGTYPE)))
     end,
     with_db srv (db srv) (tail (net srv))).
Proof.
  intros Hup. unfold FindByID, Client_Get.
  rewrite (process_up _ _ _ _ Hup). simpl.
  destruct (db srv !! orderIDKey id) as [[blob|m]|]; simpl; try done.
  by destruct (json_Unmarshal blob).
Qed.

(** X2. With the link up, [FindByID] is decided by what the key holds:
    nothing gives the zero order and [ErrNotExist]; a blob gives its
    decoding, or the zero order and the wrapped decoding error; a set gives
    the zero order and the wrapped WRONGTYPE error.  The key space is as
    before and one round trip is used. *)
Theorem FindByID_link_up (id : uint64) (srv : server) :
  link_up srv →
  FindByID id srv =
    (match db srv !! orderIDKey id with
     | None => (Order_zero, Some ErrNotExist)
     | Some (RString blob) =>
         match json_Unmarshal blob with
         | inl order => (order, None)
         | inr e => (Order_zero, Some (Errorf "failed to decode order" e))
         end
     | Some (RSet _) =>
         (Order_zero, Some (Errorf "failed to get order" (RedisError WRONGTYPE)))
     end,
     with_db srv (db srv) (tail (net srv))).
Proof. intros Hup. by apply FindByID_up. Qed.

(** With the link down, [FindByID] returns the wrapped transport error. *)
Lemma FindByID_link_down (id : uint64) (srv : server) :
  ¬ link_up srv →
  (FindByID id srv).1 =
    (Order_zero, Some (Errorf "failed to get order" NetError)).
Proof.
  intros Hdown. unfold FindByID, Client_Get.
  pose proof (process_down (GET (orderIDKey id)) read_string EmptyString
                srv Hdown) as Hcmd.
  destruct (process _ _ _ srv) as [cmd srv']. simpl in Hcmd. by subst cmd.
Qed.

(** X3. [FindByID] returns [ErrNotExist] itself exactly when the round trip
    goes through and the key is absent: no other failure is reported as a
    missing order. *)
Theorem FindByID_not_exist_iff (id : uint64) (srv : server) :
  (FindByID id srv).1.2 = Some ErrNotExist ↔
  link_up srv ∧ db srv !! orderIDKey id = None.
Proof.
  destruct (decide (link_up srv)) as [Hup|Hdown].
  - rewrite (FindByID_up _ _ Hup). simpl.
    destruct (db srv !! orderIDKey id) as [[blob|m]|]; simpl.
    + destruct (json_Unmarshal blob); simpl; split; try done; by intros [_ ?].
    + split; [done|by intros [_ ?]].
    + done.
  - rewrite (FindByID_link_down _ _ Hdown). simpl. split; [done|tauto].
Qed.

(** X4. [FindByID] never returns an order together with an error: the error
    is nil, or the order is the zero order. *)
Theorem FindByID_error_zero (id : uint64) (srv : server) :
  (FindByID id srv).1.2 = None ∨ (FindByID id srv).1.1 = Order_zero.
Proof.
  destruct (decide (link_up srv)) as [Hup|Hdown].
  - rewrite (FindByID_up _ _ Hup). simpl.
    destruct (db srv !! orderIDKey id) as [[blob|m]|]; simpl; auto.
    destruct (json_Unmarshal blob); simpl; auto.
  - rewrite (FindByID_link_down _ _ Hdown). by right.
Qed.

End FindByIDFacts.

(** The theorem X2 on the store that holds [ann]. *)
Lemma FindByID_link_up_witness :
  link_up Sample.with_ann ∧
  @FindByID OrderJSON.model 7 Sample.with_ann =
    ((Sample.ann, None), Sample.with_ann).
Proof.
  split; [reflexivity|].
  exact (@FindByID_link_up OrderJSON.model 7 Sample.with_ann eq_refl).
Defined.

(** ** Insert *)

Section InsertFacts.
Context `{OrderModel}.

(** [Insert] of a free key when the round trip goes through. *)
Lemma Insert_fresh_up (order : Order) (data : string) (m : gset string)
    (srv : server) :
  link_up srv →
  json_Marshal order = inl data →
  db srv !! orderIDKey (OrderID order) = None →
  index_set (db srv) = Some m →
  Insert order srv =
    (None,
     with_db srv
       (<["orders" := RSet (m ∪ {[ orderIDKey (OrderID order) ]})]>
          (<[orderIDKey (OrderID order) := RString data]> (db srv)))
       (tail (net srv))).
Proof.
  intros Hup Hdata Hkey Hidx.
  rewrite (Insert_sends _ _ _ Hdata). cbv zeta.
  rewrite (round_trip_up _ _ Hup). simpl. rewrite Hkey.
  rewrite lookup_insert_ne by apply orderIDKey_not_index.
  unfold index_set in Hidx.
  destruct (db srv !! "orders") as [[?|m']|] eqn:Hor; simplify_eq/=.
  - destruct (decide (orderIDKey (OrderID order) ∈ m)) as [Hin|Hnin]; [|done].
    simpl. f_equal. unfold with_db. f_equal.
    rewrite (comm_L (∪)), (subseteq_union_1_L {[ orderIDKey (OrderID order) ]} m)
      by (by apply singleton_subseteq_l).
    symmetry. apply insert_id.
    by rewrite lookup_insert_ne by apply orderIDKey_not_index.
  - by rewrite (left_id_L ∅ (∪)).
Qed.

(** X5. With the link up and ["orders"] a set or absent, [Insert] of an
    order whose key is free returns nil; it stores the blob under the key,
    adds the key to the index set and leaves every other key as it was. *)
Theorem Insert_fresh (order : Order) (data : string) (m : gset string)
    (srv : server) :
  link_up srv →
  json_Marshal order = inl data →
  db srv !! orderIDKey (OrderID order) = None →
  index_set (db srv) = Some m →
  Insert order srv =
    (None,
     with_db srv
       (<["orders" := RSet (m ∪ {[ orderIDKey (OrderID order) ]})]>
          (<[orderIDKey (OrderID order) := RString data]> (db srv)))
       (tail (net srv))).
Proof. intros Hup Hdata Hkey Hidx. by apply Insert_fresh_up. Qed.

(** X6. Insert, then look up: with two round trips going through, an order
    whose blob decodes back to it and whose key was free is returned by
    [FindByID] right after its [Insert], and its key is then in the index. *)
Theorem Insert_then_FindByID (order : Order) (data : string) (m : gset string)
    (srv : server) :
  link_up2 srv →
  json_Marshal order = inl data →
  json_Unmarshal data = inl order →
  db srv !! orderIDKey (OrderID order) = None →
  index_set (db srv) = Some m →
  (Insert order srv).1 = None ∧
  (FindByID (OrderID order) (Insert order srv).2).1 = (order, None) ∧
  index_set (db (Insert order srv).2) =
    Some (m ∪ {[ orderIDKey (OrderID order) ]}).
Proof.
  intros [Hup Hup2] Hdata Hblob Hkey Hidx.
  rewrite (Insert_fresh_up _ _ _ _ Hup Hdata Hkey Hidx). simpl.
  split; [done|]. split.
  - erewrite FindByID_present; [done|done| |done]. simpl.
    rewrite lookup_insert_ne by (symmetry; apply orderIDKey_not_index).
    by rewrite lookup_insert_eq.
  - unfold index_set. by rewrite lookup_insert_eq.
Qed.

(** [Insert] leaves every entry outside the index in place. *)
Lemma Insert_keeps_entry (order : Order) (k : string) (v : rvalue)
    (srv : server) :
  k ≠ "orders" →
  db srv !! k = Some v →
  db (Insert order srv).2 !! k = Some v.
Proof.
  intros Hk Hv.
  destruct (Insert_db order srv) as [->|(data & _ & ->)]; [done|].
  simpl.
  set (key := orderIDKey (OrderID order)).
  assert (∀ d : keyspace, d !! k = Some v →
            (let '(r, d1) :=
               match d !! "orders" with
               | Some (RString _) => (Error WRONGTYPE, d)
               | Some (RSet m0) =>
                   if decide (key ∈ m0) then (Integer 0, d)
                   else (Integer 1, <["orders" := RSet (m0 ∪ {[ key ]})]> d)
               | None => (Integer 1, <["orders" := RSet {[ key ]}]> d)
               end in ([r], d1)).2 !! k = Some v) as Hsadd.
  { intros d Hd. destruct (d !! "orders") as [[?|m0]|]; simpl; [done| |].
    - case_decide; simpl; [done|]. by rewrite lookup_insert_ne.
    - by rewrite lookup_insert_ne. }
  destruct (db srv !! key) as [v'|] eqn:Hkey.
  - specialize (Hsadd (db srv) Hv).
    by destruct (match db srv !! "orders" with
                 | Some (RString _) => _ | Some (RSet _) => _ | None => _ end).
  - assert (k ≠ key) as Hne by (intros ->; congruence).
    specialize (Hsadd (<[key := RString data]> (db srv))).
    rewrite lookup_insert_ne in Hsadd by done. specialize (Hsadd Hv).
    by destruct (match <[key := RString data]> (db srv) !! "orders" with
                 | Some (RString _) => _ | Some (RSet _) => _ | None => _ end).
Qed.

(** X7. [Insert] never writes over an entry: whatever key other than
    ["orders"] holds a value before the call holds the same value after it,
    whatever the link does and whatever the order. *)
Theorem Insert_never_overwrites (order : Order) (k : string) (v : rvalue)
    (srv : server) :
  k ≠ "orders" →
  db srv !! k = Some v →
  db (Insert order srv).2 !! k = Some v.
Proof. intros Hk Hv. by apply Insert_keeps_entry. Qed.

End InsertFacts.

Section InsertResults.
Context `{OrderModel}.

(** X8. An order that is stored and indexed is out of reach of [Insert]: a
    call with its [OrderID] leaves the whole key space as it was, whatever
    the link does and whatever the new payload. *)
Theorem Insert_stored_unchanged (order : Order) (v : rvalue) (m : gset string)
    (srv : server) :
  db srv !! orderIDKey (OrderID order) = Some v →
  index_set (db srv) = Some m →
  orderIDKey (OrderID order) ∈ m →
  db (Insert order srv).2 = db srv.
Proof.
  intros Hkey Hidx Hin.
  destruct (Insert_db order srv) as [->|(data & _ & ->)]; [done|].
  destruct (insert_batch_effect (sscan_iter srv) (orderIDKey (OrderID order))
              data (db srv) m) as [[_ ->]|(Hnone & _)];
    [apply orderIDKey_not_index|done| |done|congruence].
  split; [by eexists|done].
Qed.

(** X9. The error of [Insert], in full: the wrapped encoding error when the
    order does not serialize; otherwise the wrapped transport error when the
    round trip fails; otherwise the wrapped WRONGTYPE error when ["orders"]
    holds a string; otherwise nil.  Whether the key was free or taken plays
    no part. *)
Theorem Insert_result (order : Order) (srv : server) :
  (Insert order srv).1 =
    match json_Marshal order with
    | inr e => Some (Errorf "failed to encode order" e)
    | inl _ =>
        if decide (link_up srv) then
          match index_set (db srv) with
          | Some _ => None
          | None =>
              Some (Errorf "failed to execute transaction" (RedisError WRONGTYPE))
          end
        else Some (Errorf "failed to execute transaction" NetError)
    end.
Proof.
  destruct (json_Marshal order) as [data|e] eqn:Hdata.
  - destruct (decide (link_up srv)) as [Hup|Hdown].
    + destruct (index_set (db srv)) as [m|] eqn:Hidx.
      { by apply (Insert_link_up order data srv m). }
      rewrite (Insert_sends _ _ _ Hdata). cbv zeta.
      rewrite (round_trip_up _ _ Hup). simpl.
      unfold index_set in Hidx.
      destruct (db srv !! orderIDKey (OrderID order)); simpl.
      * by destruct (db srv !! "orders") as [[?|?]|].
      * rewrite lookup_insert_ne by apply orderIDKey_not_index.
        by destruct (db srv !! "orders") as [[?|?]|].
    + rewrite (Insert_sends _ _ _ Hdata). cbv zeta.
      pose proof (round_trip_down
                    [SETNX (orderIDKey (OrderID order)) data;
                     SADD "orders" (orderIDKey (OrderID order))] srv Hdown) as Hrt.
      destruct (round_trip _ srv) as [[rs|e] srv']; simpl in Hrt; by simplify_eq.
  - unfold Insert. by rewrite Hdata.
Qed.

(** X10. [Insert] is not all or nothing when ["orders"] holds a string: with
    the link up and the key free, the call returns the wrapped WRONGTYPE
    error of [SADD], and the blob is stored under the key all the same. *)
Theorem Insert_mistyped_index (order : Order) (data s : string) (srv : server) :
  link_up srv →
  json_Marshal order = inl data →
  db srv !! orderIDKey (OrderID order) = None →
  db srv !! "orders" = Some (RString s) →
  Insert order srv =
    (Some (Errorf "failed to execute transaction" (RedisError WRONGTYPE)),
     with_db srv (<[orderIDKey (OrderID order) := RString data]> (db srv))
       (tail (net srv))).
Proof.
  intros Hup Hdata Hkey Hor.
  rewrite (Insert_sends _ _ _ Hdata). cbv zeta.
  rewrite (round_trip_up _ _ Hup). simpl. rewrite Hkey.
  rewrite lookup_insert_ne by apply orderIDKey_not_index.
  by rewrite Hor.
Qed.

Lemma insert_batch_fresh (scan : scan_policy) (key data : string)
    (d : keyspace) (m : gset string) :
  key ≠ "orders" →
  d !! key = None →
  index_set d = Some m →
  (redis_exec_all scan [SETNX key data; SADD "orders" key] d).2 =
    <["orders" := RSet (m ∪ {[ key ]})]> (<[key := RString data]> d).
Proof.
  intros Hne Hkey Hidx. simpl. rewrite Hkey.
  rewrite lookup_insert_ne by done. unfold index_set in Hidx.
  destruct (d !! "orders") as [[?|m']|] eqn:Hor; simplify_eq/=.
  - destruct (decide (key ∈ m)) as [Hin|Hnin]; [|done]. simpl.
    rewrite (comm_L (∪)), (subseteq_union_1_L {[ key ]} m)
      by (by apply singleton_subseteq_l).
    symmetry. apply insert_id. by rewrite lookup_insert_ne.
  - by rewrite (left_id_L ∅ (∪)).
Qed.

(** X11. An error of [Insert] does not tell that nothing was stored: when
    the reply of the transaction is lost, the call returns the wrapped
    transport error, and the order is stored and indexed. *)
Theorem Insert_reply_lost (order : Order) (data : string) (m : gset string)
    (srv : server) :
  head (net srv) = Some DropReply →
  json_Marshal order = inl data →
  db srv !! orderIDKey (OrderID order) = None →
  index_set (db srv) = Some m →
  Insert order srv =
    (Some (Errorf "failed to execute transaction" NetError),
     with_db srv
       (<["orders" := RSet (m ∪ {[ orderIDKey (OrderID order) ]})]>
          (<[orderIDKey (OrderID order) := RString data]> (db srv)))
       (tail (net srv))).
Proof.
  intros Hnet Hdata Hkey Hidx.
  pose proof (insert_batch_fresh (sscan_iter srv) (orderIDKey (OrderID order))
                data (db srv) m (orderIDKey_not_index _) Hkey Hidx) as Hdb.
  rewrite (Insert_sends _ _ _ Hdata). cbv zeta.
  unfold round_trip. rewrite Hnet. cbn [default].
  destruct (redis_exec_all (sscan_iter srv) _ (db srv)) as [rs d'].
  simpl in Hdb. by subst d'.
Qed.

End InsertResults.

(** ** Update *)

Section UpdateFacts.
Context `{OrderModel}.

(** X12. Update, then look up: with two round trips going through, [Update]
    of an order whose key has an entry returns nil, replaces the entry by
    the new blob and nothing else, and [FindByID] then returns the new
    order, when the blob decodes back to it. *)
Theorem Update_then_FindByID (order : Order) (data : string) (v : rvalue)
    (srv : server) :
  link_up2 srv →
  json_Marshal order = inl data →
  json_Unmarshal data = inl order →
  db srv !! orderIDKey (OrderID order) = Some v →
  (Update order srv).1 = None ∧
  db (Update order srv).2 =
    <[orderIDKey (OrderID order) := RString data]> (db srv) ∧
  (FindByID (OrderID order) (Update order srv).2).1 = (order, None).
Proof.
  intros [Hup Hup2] Hdata Hblob Hkey.
  assert (Update order srv =
            (None, with_db srv (<[orderIDKey (OrderID order) := RString data]>
                                  (db srv)) (tail (net srv)))) as ->.
  { unfold Update, Client_SetXX. rewrite Hdata, (process_up _ _ _ _ Hup).
    simpl. by rewrite Hkey. }
  simpl. split; [done|]. split; [done|].
  erewrite FindByID_present; [done|done| |done].
  simpl. by rewrite lookup_insert_eq.
Qed.

(** X13. The error of [Update], in full: the wrapped encoding error when the
    order does not serialize; otherwise the wrapped transport error when the
    round trip fails; otherwise nil.  Whether the key has an entry plays no
    part, and [ErrNotExist] is never returned. *)
Theorem Update_result (order : Order) (srv : server) :
  (Update order srv).1 =
    match json_Marshal order with
    | inr e => Some (Errorf "failed to encode order" e)
    | inl _ =>
        if decide (link_up srv) then None
        else Some (Errorf "failed to update order" NetError)
    end.
Proof.
  unfold Update, Client_SetXX.
  destruct (json_Marshal order) as [data|e]; [|done].
  destruct (decide (link_up srv)) as [Hup|Hdown].
  - rewrite (process_up _ _ _ _ Hup). simpl.
    by destruct (db srv !! orderIDKey (OrderID order)).
  - pose proof (process_down (SET_XX (orderIDKey (OrderID order)) data)
                  read_bool false srv Hdown) as Hcmd.
    destruct (process _ _ _ srv) as [cmd srv']. simpl in Hcmd. by subst cmd.
Qed.

End UpdateFacts.

(** ** DeleteByID *)

Section DeleteByIDFacts.
Context `{OrderModel}.

(** X14. [DeleteByID] sends nothing.  For every id and every server it
    returns nil and leaves the server as it was, so every [FindByID] and
    every [FindAll] that follows gives what it gave before the call. *)
Theorem DeleteByID_sends_nothing (id : uint64) (srv : server) :
  DeleteByID id srv = (None, srv) ∧
  (∀ id', FindByID id' (DeleteByID id srv).2 = FindByID id' srv) ∧
  (∀ page, FindAll page (DeleteByID id srv).2 = FindAll page srv).
Proof. by rewrite DeleteByID_returns_nil. Qed.

End DeleteByIDFacts.

(** ** FindAll *)

(** A scan that succeeds brings members of the set under the key only. *)
Lemma SScan_members (key : string) (cursor : N) (count : Z) (srv : server)
    (k : string) :
  Err (Client_SScan key cursor count srv).1 = None →
  k ∈ (Val (Client_SScan key cursor count srv).1).1 →
  ∃ m, db srv !! key = Some (RSet m) ∧ k ∈ m.
Proof.
  unfold Client_SScan. set (c := SSCAN _ _ _).
  destruct (decide (link_up srv)) as [Hup|Hdown].
  - rewrite (process_up _ _ _ _ Hup). subst c. simpl.
    set (n := default 10%Z _).
    destruct (decide (n < 1)%Z); simpl; [done|].
    destruct (db srv !! key) as [[?|m]|]; simpl; [done| |].
    + destruct (sscan_iter srv m cursor n) as [page next]. simpl.
      intros _ Hin. exists m. split; [done|].
      by apply list_elem_of_filter in Hin as [? _].
    + intros _ Hin. by apply elem_of_nil in Hin.
  - by rewrite (process_down _ _ _ _ Hdown).
Qed.

Lemma MGet_link_up (keys : list string) (srv : server) :
  link_up srv →
  Client_MGet keys srv =
    (MkCmd (mget_one (db srv) <$> keys) None,
     with_db srv (db srv) (tail (net srv))).
Proof. intros Hup. unfold Client_MGet. by rewrite (process_up _ _ _ _ Hup). Qed.

(** A fetch that succeeds brings the value of each key, in the order of the
    keys. *)
Lemma MGet_values (keys : list string) (srv : server) :
  Err (Client_MGet keys srv).1 = None →
  Val (Client_MGet keys srv).1 = mget_one (db srv) <$> keys.
Proof.
  destruct (decide (link_up srv)) as [Hup|Hdown].
  - by rewrite (MGet_link_up _ _ Hup).
  - unfold Client_MGet. by rewrite (process_down _ _ _ _ Hdown).
Qed.

Section FindAllFacts.
Context `{OrderModel}.

(** The loop returns orders exactly when every value is a blob that decodes,
    and then the orders stand in the order of the values. *)
Lemma decode_orders_returns (xs : list (option string)) (orders : list Order) :
  decode_orders xs = Returns (inl orders) ↔
  Forall2 (λ x o, ∃ blob, x = Some blob ∧ json_Unmarshal blob = inl o) xs orders.
Proof.
  revert orders. induction xs as [|x xs IH]; intros orders; simpl.
  - split.
    + intros Heq. simplify_eq. constructor.
    + intros Hall. by apply Forall2_nil_inv_l in Hall as ->.
  - destruct x as [blob|].
    + destruct (json_Unmarshal blob) as [o|e] eqn:Hblob.
      * split.
        -- destruct (decode_orders xs) as [[os|e]|msg] eqn:Hrest;
             intros Heq; simplify_eq.
           constructor; [by eexists|]. by apply IH.
        -- intros Hall.
           apply Forall2_cons_inv_l in Hall
             as (o' & os & (blob' & Hsome & Hdec) & Hall & ->).
           simplify_eq. assert (o' = o) as -> by congruence.
           apply IH in Hall. by rewrite Hall.
      * split; [done|]. intros Hall.
        apply Forall2_cons_inv_l in Hall
          as (o' & os & (blob' & Hsome & Hdec) & _ & _).
        simplify_eq. congruence.
    + split; [done|]. intros Hall.
      apply Forall2_cons_inv_l in Hall as (o' & os & (blob' & Hsome & _) & _ & _).
      done.
Qed.

(** [FindAll], step by step on the results of its two client calls. *)
Lemma FindAll_steps (page : FindAllPage) (srv : server) :
  let scanned :=
    Client_SScan "orders" (Offset page) (int64_of_uint64 (Size page)) srv in
  let keys := (Val scanned.1).1 in
  let fetched := Client_MGet keys scanned.2 in
  FindAll page srv =
    match Err scanned.1 with
    | Some err =>
        (Returns (FindResult_zero, Some (Errorf "failed to get order IDs" err)),
         scanned.2)
    | None =>
        if decide (length keys = 0) then
          (Returns (MkFindResult [] 0, None), scanned.2)
        else
          match Err fetched.1 with
          | Some err =>
              (Returns (FindResult_zero, Some (Errorf "failed to get orders" err)),
               fetched.2)
          | None =>
              (match decode_orders (Val fetched.1) with
               | Panics msg => Panics msg
               | Returns (inr err) =>
                   Returns (FindResult_zero,
                            Some (Errorf "failed to decode json" err))
               | Returns (inl orders) =>
                   Returns (MkFindResult orders (Val scanned.1).2, None)
               end, fetched.2)
          end
    end.
Proof.
  unfold FindAll. cbv zeta.
  destruct (Client_SScan _ _ _ srv) as [res srv1]. simpl.
  destruct (Val res) as [keys cursor]. simpl.
  destruct (Err res); [done|]. case_decide; [done|].
  destruct (Client_MGet keys srv1) as [cmd srv2]. simpl.
  destruct (Err cmd); [done|].
  by destruct (decode_orders (Val cmd)) as [[?|?]|?].
Qed.

End FindAllFacts.

Section FindAllResults.
Context `{OrderModel}.

Lemma mget_one_Some (d : keyspace) (k blob : string) :
  mget_one d k = Some blob ↔ d !! k = Some (RString blob).
Proof.
  unfold mget_one. destruct (d !! k) as [[s|m]|]; split; intros Heq;
    by simplify_eq.
Qed.

(** X15. With two round trips going through, when the scan brings the keys
    [keys] (not none) and the cursor [cursor], and every key holds a blob
    that decodes, [FindAll] returns the decoded orders in the order of the
    keys, with that cursor and no error. *)
Theorem FindAll_lists (page : FindAllPage) (srv : server)
    (keys : list string) (cursor : uint64) (orders : list Order) :
  link_up2 srv →
  (Client_SScan "orders" (Offset page) (int64_of_uint64 (Size page)) srv).1 =
    MkCmd (keys, cursor) None →
  keys ≠ [] →
  Forall2 (λ k o, ∃ blob, db srv !! k = Some (RString blob) ∧
                          json_Unmarshal blob = inl o) keys orders →
  (FindAll page srv).1 = Returns (MkFindResult orders cursor, None).
Proof.
  intros [Hup Hup2] Hscan Hkeys Hall.
  rewrite FindAll_steps. cbv zeta.
  pose proof (process_rest
                (SSCAN "orders" (Offset page)
                   (if decide (0 < int64_of_uint64 (Size page))%Z
                    then Some (int64_of_uint64 (Size page)) else None))
                read_scan ([], 0%N) srv) as [Hnet _].
  pose proof (process_read_only
                (SSCAN "orders" (Offset page)
                   (if decide (0 < int64_of_uint64 (Size page))%Z
                    then Some (int64_of_uint64 (Size page)) else None))
                read_scan ([], 0%N) srv I) as Hdb.
  fold (Client_SScan "orders" (Offset page) (int64_of_uint64 (Size page)) srv)
    in Hnet, Hdb.
  destruct (Client_SScan _ _ _ srv) as [res srv1]. simpl in *. subst res.
  simpl. rewrite decide_False by (by destruct keys).
  assert (link_up srv1) as Hup1 by (unfold link_up; by rewrite Hnet).
  rewrite (MGet_link_up _ _ Hup1). simpl. rewrite Hdb.
  assert (decode_orders (mget_one (db srv) <$> keys) = Returns (inl orders))
    as ->; [|done].
  apply decode_orders_returns, Forall2_fmap_l.
  eapply Forall2_impl; [exact Hall|]. simpl.
  intros k o (blob & Hk & Hdec). exists blob. split; [|done].
  by apply mget_one_Some.
Qed.

(** X16. What [FindAll] returns without error is in the store: every order
    of the result is the decoding of a blob that is stored under a member of
    the index set. *)
Theorem FindAll_sound (page : FindAllPage) (srv : server) (r : FindResult)
    (o : Order) :
  (FindAll page srv).1 = Returns (r, None) →
  o ∈ Orders r →
  ∃ m k blob, db srv !! "orders" = Some (RSet m) ∧ k ∈ m ∧
              db srv !! k = Some (RString blob) ∧ json_Unmarshal blob = inl o.
Proof.
  rewrite FindAll_steps. cbv zeta.
  pose proof (SScan_members "orders" (Offset page)
                (int64_of_uint64 (Size page)) srv) as Hmem.
  pose proof (process_read_only
                (SSCAN "orders" (Offset page)
                   (if decide (0 < int64_of_uint64 (Size page))%Z
                    then Some (int64_of_uint64 (Size page)) else None))
                read_scan ([], 0%N) srv I) as Hdb.
  fold (Client_SScan "orders" (Offset page) (int64_of_uint64 (Size page)) srv)
    in Hdb.
  destruct (Client_SScan _ _ _ srv) as [res srv1]. simpl in *.
  destruct (Err res) as [e|]; [done|]. case_decide.
  { simpl. intros Hret Hin. simplify_eq. simpl in Hin.
    by apply elem_of_nil in Hin. }
  pose proof (MGet_values (Val res).1 srv1) as Hvals.
  destruct (Client_MGet _ srv1) as [cmd srv2]. simpl in *.
  destruct (Err cmd) as [e|]; [done|]. specialize (Hvals eq_refl).
  destruct (decode_orders (Val cmd)) as [[orders|e]|msg] eqn:Hdec; [|done..].
  simpl. intros Hret Hin. simplify_eq. simpl in Hin.
  apply decode_orders_returns in Hdec. rewrite Hvals in Hdec.
  apply Forall2_fmap_l in Hdec.
  apply list_elem_of_lookup in Hin as [i Hi].
  destruct (Forall2_lookup_r _ _ _ _ _ Hdec Hi) as (k & Hk & blob & Hget & Hblob).
  destruct (Hmem k eq_refl) as (m & Hor & Hkm).
  { apply list_elem_of_lookup. by exists i. }
  exists m, k, blob. split; [done|]. split; [done|].
  split; [|done]. rewrite <-Hdb. by apply mget_one_Some.
Qed.

(** X17. [FindAll] never returns orders together with an error: with an
    error the result is the zero result, no orders and cursor 0. *)
Theorem FindAll_error_zero (page : FindAllPage) (srv : server) :
  match (FindAll page srv).1 with
  | Returns (r, Some _) => r = FindResult_zero
  | _ => True
  end.
Proof.
  rewrite FindAll_steps. cbv zeta.
  destruct (Client_SScan _ _ _ srv) as [res srv1]. simpl.
  destruct (Err res); [done|]. case_decide; [done|].
  destruct (Client_MGet _ srv1) as [cmd srv2]. simpl.
  destruct (Err cmd); [done|].
  by destruct (decode_orders (Val cmd)) as [[?|?]|?].
Qed.

(** X18. The page size reaches the server as [COUNT] only between 1 and
    [2 ^ 63 - 1]: a size of 0 and a size from [2 ^ 63] on, which is negative
    as an [int64], give the same call as one another. *)
Theorem FindAll_size_out_of_range (page : FindAllPage) (srv : server) :
  (Size page = 0 ∨ 2 ^ 63 ≤ Size page < 2 ^ 64)%N →
  FindAll page srv = FindAll (MkFindAllPage 0 (Offset page)) srv.
Proof.
  intros Hsize.
  assert (¬ (0 < int64_of_uint64 (Size page))%Z) as Hcount.
  { unfold int64_of_uint64.
    assert ((Z.of_N (Size page) mod 2 ^ 64 = Z.of_N (Size page))%Z) as ->.
    { apply Z.mod_small. lia. }
    case_decide; lia. }
  unfold FindAll, Client_SScan. simpl Offset. simpl Size.
  rewrite (decide_False (P := (0 < int64_of_uint64 (Size page))%Z)) by done.
  by rewrite (decide_False (P := (0 < int64_of_uint64 0)%Z)).
Qed.

End FindAllResults.

(** ** Reads *)

Section ReadFacts.
Context `{OrderModel}.



(** X20. When the round trip fails, the reads return their zero value and
    an error that wraps the transport error, which [errors.Is] finds under
    the wrapper. *)
Theorem reads_link_down (srv : server) :
  ¬ link_up srv →
  (∀ id, (FindByID id srv).1 =
           (Order_zero, Some (Errorf "failed to get order" NetError))) ∧
  (∀ page, (FindAll page srv).1 =
             Returns (FindResult_zero,
                      Some (Errorf "failed to get order IDs" NetError))) ∧
  errors_Is (Some (Errorf "failed to get order" NetError)) NetError = true ∧
  errors_Is (Some (Errorf "failed to get order IDs" NetError)) NetError = true.
Proof.
  intros Hdown. split; [|split; [|done]].
  - intros id. by apply FindByID_link_down.
  - intros page. rewrite FindAll_steps. cbv zeta. unfold Client_SScan.
    pose proof (process_down
                  (SSCAN "orders" (Offset page)
                     (if decide (0 < int64_of_uint64 (Size page))%Z
                      then Some (int64_of_uint64 (Size page)) else None))
                  read_scan ([], 0%N) srv Hdown) as Hcmd.
    destruct (process _ _ _ srv) as [cmd srv']. simpl in *. by subst cmd.
Qed.

End ReadFacts.

(** ** Keys are never removed *)

Lemma redis_exec_keeps_keys (scan : scan_policy) (c : command) (d : keyspace) :
  keeps_keys c → dom d ⊆ dom (redis_exec scan c d).2.
Proof.
  destruct c; simpl; try done; intros _.
  - destruct (d !! key); simpl; [done|]. rewrite dom_insert_L. set_solver.
  - destruct (d !! key); simpl; [|done]. rewrite dom_insert_L. set_solver.
  - by destruct (d !! key) as [[]|].
  - destruct (d !! key) as [[?|m]|]; simpl; [done| |].
    + case_decide; simpl; [done|]. rewrite dom_insert_L. set_solver.
    + rewrite dom_insert_L. set_solver.
  - case_decide; [done|]. destruct (d !! key) as [[?|m]|]; simpl; try done.
    by destruct (scan m cursor _).
Qed.

Lemma redis_exec_all_keeps_keys (scan : scan_policy) (cs : list command)
    (d : keyspace) :
  Forall keeps_keys cs → dom d ⊆ dom (redis_exec_all scan cs d).2.
Proof.
  revert d. induction cs as [|c cs IH]; intros d Hcs; [done|].
  apply Forall_cons in Hcs as [Hc Hcs]. simpl.
  pose proof (redis_exec_keeps_keys scan c d Hc) as Hstep.
  destruct (redis_exec scan c d) as [r d1]. simpl in Hstep.
  specialize (IH d1 Hcs).
  destruct (redis_exec_all scan cs d1) as [rs d2]. simpl in *.
  by etrans.
Qed.

(** X21. No call of the repository removes a key from the store: every key
    of the store before [Insert], [Update], [DeleteByID], [FindByID] or
    [FindAll] is a key of the store after it, whatever the link does. *)
Theorem keys_never_removed `{OrderModel} (srv : server) :
  (∀ order, dom (db srv) ⊆ dom (db (Insert order srv).2)) ∧
  (∀ order, dom (db srv) ⊆ dom (db (Update order srv).2)) ∧
  (∀ id, dom (db srv) ⊆ dom (db (DeleteByID id srv).2)) ∧
  (∀ id, dom (db srv) ⊆ dom (db (FindByID id srv).2)) ∧
  (∀ page, dom (db srv) ⊆ dom (db (FindAll page srv).2)).
Proof.
  repeat split.
  - intros order.
    destruct (Insert_db order srv) as [->|(data & _ & ->)]; [done|].
    apply redis_exec_all_keeps_keys. by repeat constructor.
  - intros order.
    destruct (Update_db order srv) as [->|(data & _ & ->)]; [done|].
    by apply redis_exec_keeps_keys.
  - intros id. by rewrite DeleteByID_returns_nil.
  - intros id. by rewrite FindByID_db.
  - intros page. by rewrite FindAll_db.
Qed.

(** ** The typing of the store *)

Lemma well_typed_store_blob (id : uint64) (blob : string) (d : keyspace) :
  well_typed d → well_typed (<[orderIDKey id := RString blob]> d).
Proof.
  intros [Hstr (m & Hidx & Hmem)]. split.
  - intros id' v. destruct (decide (orderIDKey id = orderIDKey id')) as [<-|Hne].
    + rewrite lookup_insert_eq. intros [= <-]. by eexists.
    + rewrite lookup_insert_ne by done. apply Hstr.
  - exists m. split; [|done]. unfold index_set in *.
    by rewrite lookup_insert_ne by apply orderIDKey_not_index.
Qed.

Lemma well_typed_index_key (id : uint64) (m : gset string) (d : keyspace) :
  well_typed d →
  index_set d = Some m →
  well_typed (<["orders" := RSet (m ∪ {[ orderIDKey id ]})]> d).
Proof.
  intros [Hstr (m' & Hidx & Hmem)] Hm.
  assert (m' = m) as -> by congruence. split.
  - intros id' v.
    rewrite lookup_insert_ne by (symmetry; apply orderIDKey_not_index).
    apply Hstr.
  - exists (m ∪ {[ orderIDKey id ]}). split.
    { unfold index_set. by rewrite lookup_insert_eq. }
    intros k [Hk|Hk]%elem_of_union; [by apply Hmem|].
    apply elem_of_singleton in Hk as ->. by eexists.
Qed.

Lemma insert_batch_typed (scan : scan_policy) (id : uint64) (data : string)
    (d : keyspace) :
  well_typed d →
  well_typed
    (redis_exec_all scan [SETNX (orderIDKey id) data;
                          SADD "orders" (orderIDKey id)] d).2.
Proof.
  intros Htyped.
  assert (∀ d1 : keyspace, well_typed d1 →
            well_typed (redis_exec scan (SADD "orders" (orderIDKey id)) d1).2)
    as Hsadd.
  { intros d1 Hd1. pose proof Hd1 as [_ (m & Hidx & _)]. simpl.
    unfold index_set in Hidx.
    destruct (d1 !! "orders") as [[?|m']|] eqn:Hor; simplify_eq/=.
    - case_decide; simpl; [done|].
      apply well_typed_index_key; [done|]. unfold index_set. by rewrite Hor.
    - rewrite <-(left_id_L ∅ (∪) {[ orderIDKey id ]}).
      apply well_typed_index_key; [done|]. unfold index_set. by rewrite Hor. }
  simpl. destruct (d !! orderIDKey id) eqn:Hkey.
  - specialize (Hsadd d Htyped). simpl in Hsadd.
    by destruct (match d !! "orders" with
                 | Some (RString _) => _ | Some (RSet _) => _ | None => _ end).
  - specialize (Hsadd (<[orderIDKey id := RString data]> d)
                  (well_typed_store_blob id data d Htyped)).
    simpl in Hsadd.
    by destruct (match <[orderIDKey id := RString data]> d !! "orders" with
                 | Some (RString _) => _ | Some (RSet _) => _ | None => _ end).
Qed.

Section TypingFacts.
Context `{OrderModel}.

Lemma after_dual (c : call) (srv : server) :
  dual_structure (db srv) → dual_structure (db (after c srv)).
Proof.
  intros Hdual. destruct c as [order|id|id|order|page]; simpl.
  - destruct (Insert_db order srv) as [->|(data & _ & ->)]; [done|].
    by apply insert_batch_dual.
  - by rewrite FindByID_db.
  - done.
  - destruct (Update_db order srv) as [->|(data & _ & ->)]; [done|].
    by apply set_xx_dual.
  - by rewrite FindAll_db.
Qed.

Lemma after_typed (c : call) (srv : server) :
  well_typed (db srv) → well_typed (db (after c srv)).
Proof.
  intros Htyped. destruct c as [order|id|id|order|page]; simpl.
  - destruct (Insert_db order srv) as [->|(data & _ & ->)]; [done|].
    by apply insert_batch_typed.
  - by rewrite FindByID_db.
  - done.
  - destruct (Update_db order srv) as [->|(data & _ & ->)]; [done|].
    simpl. destruct (db srv !! orderIDKey (OrderID order)); simpl; [|done].
    by apply well_typed_store_blob.
  - by rewrite FindAll_db.
Qed.

(** X22. Every call keeps the typing of the store: every order key holds a
    string, ["orders"] is a set or absent, and the set names order keys
    only.  The repository writes nothing else, whatever the link does. *)
Theorem well_typed_preserved (c : call) (srv : server) :
  well_typed (db srv) → well_typed (db (after c srv)).
Proof. intros Htyped. by apply after_typed. Qed.

Lemma decode_orders_panics (xs : list (option string)) (msg : string) :
  decode_orders xs = Panics msg → None ∈ xs.
Proof.
  induction xs as [|[blob|] xs IH]; simpl; [done| |by left].
  destruct (json_Unmarshal blob); [|done].
  destruct (decode_orders xs) as [[?|?]|msg'] eqn:Hrest; try done.
  intros Heq. right. by apply IH.
Qed.

(** [FindAll] returns in a store with the dual structure and the typing. *)
Lemma FindAll_returns (page : FindAllPage) (srv : server) (msg : string) :
  dual_structure (db srv) →
  well_typed (db srv) →
  (FindAll page srv).1 ≠ Panics msg.
Proof.
  intros (m & Hidx & Hiff) [Hstr (m' & Hidx' & Hmem)].
  assert (m' = m) as -> by congruence.
  rewrite FindAll_steps. cbv zeta.
  pose proof (SScan_members "orders" (Offset page)
                (int64_of_uint64 (Size page)) srv) as Hscan.
  pose proof (process_read_only
                (SSCAN "orders" (Offset page)
                   (if decide (0 < int64_of_uint64 (Size page))%Z
                    then Some (int64_of_uint64 (Size page)) else None))
                read_scan ([], 0%N) srv I) as Hdb.
  fold (Client_SScan "orders" (Offset page) (int64_of_uint64 (Size page)) srv)
    in Hdb.
  destruct (Client_SScan _ _ _ srv) as [res srv1]. simpl in *.
  destruct (Err res) as [e|]; [done|]. case_decide; [done|].
  pose proof (MGet_values (Val res).1 srv1) as Hvals.
  destruct (Client_MGet _ srv1) as [cmd srv2]. simpl in *.
  destruct (Err cmd) as [e|]; [done|]. specialize (Hvals eq_refl).
  destruct (decode_orders (Val cmd)) as [[orders|e]|msg'] eqn:Hdec; [done..|].
  exfalso. apply decode_orders_panics in Hdec. rewrite Hvals, Hdb in Hdec.
  apply list_elem_of_fmap in Hdec as (k & Hnone & Hk).
  destruct (Hscan k eq_refl Hk) as (m0 & Hor & Hkm).
  assert (m0 = m) as ->.
  { unfold index_set in Hidx. rewrite Hor in Hidx. by simplify_eq. }
  destruct (Hmem k Hkm) as [id ->].
  apply Hiff in Hkm as [v Hv].
  destruct (Hstr id v Hv) as [blob ->].
  unfold mget_one in Hnone. by rewrite Hv in Hnone.
Qed.

(** X23. In a store that has the dual structure and is well typed, [FindAll]
    does not panic: every key that the scan brings has a string entry, so no
    value of the fetch is nil. *)
Theorem FindAll_no_panic (page : FindAllPage) (srv : server) (msg : string) :
  dual_structure (db srv) →
  well_typed (db srv) →
  (FindAll page srv).1 ≠ Panics msg.
Proof. intros Hdual Htyped. by apply FindAll_returns. Qed.

Lemma empty_store_dual : dual_structure ∅.
Proof.
  exists ∅. split; [done|]. intros id. rewrite lookup_empty.
  split; [by intros ?%not_elem_of_empty|by intros [? ?]].
Qed.

Lemma empty_store_typed : well_typed ∅.
Proof.
  split.
  - intros id v. by rewrite lookup_empty.
  - exists ∅. split; [done|]. by intros k ?%not_elem_of_empty.
Qed.

Lemma after_all_invariants (cs : list call) (srv : server) :
  dual_structure (db srv) → well_typed (db srv) →
  dual_structure (db (after_all cs srv)) ∧ well_typed (db (after_all cs srv)).
Proof.
  revert srv. induction cs as [|c cs IH]; intros srv Hdual Htyped; [done|].
  simpl. apply IH; [by apply after_dual|by apply after_typed].
Qed.

End TypingFacts.

(** ** Calls one after the other *)

Section CallFacts.
Context `{OrderModel}.

(** X24. From an empty store on, whatever calls are made in whatever order,
    under whatever link and set walk, the store keeps the dual structure and
    its typing, and [FindAll] never panics: the repository alone does not
    produce an index member without a primary entry. *)
Theorem calls_from_empty_store (cs : list call) (srv : server) :
  db srv = ∅ →
  dual_structure (db (after_all cs srv)) ∧
  well_typed (db (after_all cs srv)) ∧
  ∀ page msg, (FindAll page (after_all cs srv)).1 ≠ Panics msg.
Proof.
  intros Hempty.
  destruct (after_all_invariants cs srv) as [Hdual Htyped].
  { rewrite Hempty. apply empty_store_dual. }
  { rewrite Hempty. apply empty_store_typed. }
  split; [done|]. split; [done|].
  intros page msg. by apply FindAll_returns.
Qed.

Lemma after_keeps_entry (c : call) (k : string) (v : rvalue) (srv : server) :
  k ≠ "orders" →
  db srv !! k = Some v →
  ¬ updates k c →
  db (after c srv) !! k = Some v.
Proof.
  intros Hk Hv Hupd. destruct c as [order|id|id|order|page]; simpl in *.
  - by apply Insert_keeps_entry.
  - by rewrite FindByID_db.
  - done.
  - destruct (Update_db order srv) as [->|(data & _ & ->)]; [done|].
    simpl. destruct (db srv !! orderIDKey (OrderID order)); simpl; [|done].
    by rewrite lookup_insert_ne.
  - by rewrite FindAll_db.
Qed.

(** X25. An entry changes through [Update] with its own [OrderID] only:
    after any calls among which there is no such [Update], the key holds the
    value it held before.  [DeleteByID], [Insert] with the same [OrderID] and
    every call for other orders leave it in place. *)
Theorem entry_survives (cs : list call) (k : string) (v : rvalue)
    (srv : server) :
  k ≠ "orders" →
  db srv !! k = Some v →
  Forall (λ c, ¬ updates k c) cs →
  db (after_all cs srv) !! k = Some v.
Proof.
  intros Hk. revert srv. induction cs as [|c cs IH]; intros srv Hv Hcs; [done|].
  apply Forall_cons in Hcs as [Hc Hcs]. simpl.
  apply IH; [|done]. by apply after_keeps_entry.
Qed.

Lemma after_index_grows (c : call) (m : gset string) (srv : server) :
  index_set (db srv) = Some m →
  ∃ m', index_set (db (after c srv)) = Some m' ∧ m ⊆ m'.
Proof.
  intros Hidx. destruct c as [order|id|id|order|page]; simpl.
  - destruct (Insert_db order srv) as [->|(data & _ & ->)]; [by exists m|].
    simpl. set (key := orderIDKey (OrderID order)).
    assert (∀ d : keyspace, index_set d = Some m →
              ∃ m', index_set
                      (let '(r, d1) :=
                         match d !! "orders" with
                         | Some (RString _) => (Error WRONGTYPE, d)
                         | Some (RSet m0) =>
                             if decide (key ∈ m0) then (Integer 0, d)
                             else (Integer 1,
                                   <["orders" := RSet (m0 ∪ {[ key ]})]> d)
                         | None => (Integer 1, <["orders" := RSet {[ key ]}]> d)
                         end in ([r], d1)).2 = Some m' ∧ m ⊆ m') as Hsadd.
    { intros d Hd. unfold index_set in Hd.
      destruct (d !! "orders") as [[?|m0]|] eqn:Hor; simplify_eq/=.
      - case_decide; simpl.
        + exists m. split; [|done]. unfold index_set. by rewrite Hor.
        + exists (m ∪ {[ key ]}). split; [|set_solver].
          unfold index_set. by rewrite lookup_insert_eq.
      - exists {[ key ]}. split; [|set_solver].
        unfold index_set. by rewrite lookup_insert_eq. }
    destruct (db srv !! key) as [v'|] eqn:Hkey.
    + destruct (Hsadd (db srv) Hidx) as (m' & Hm' & Hsub). exists m'.
      by destruct (match db srv !! "orders" with
                   | Some (RString _) => _ | Some (RSet _) => _ | None => _ end).
    + destruct (Hsadd (<[key := RString data]> (db srv))) as (m' & Hm' & Hsub).
      { unfold index_set in *.
        by rewrite lookup_insert_ne by apply orderIDKey_not_index. }
      exists m'.
      by destruct (match <[key := RString data]> (db srv) !! "orders" with
                   | Some (RString _) => _ | Some (RSet _) => _ | None => _ end).
  - rewrite FindByID_db. by exists m.
  - by exists m.
  - destruct (Update_db order srv) as [->|(data & _ & ->)]; [by exists m|].
    simpl. destruct (db srv !! orderIDKey (OrderID order)); simpl; [|by exists m].
    exists m. split; [|done]. unfold index_set in *.
    by rewrite lookup_insert_ne by apply orderIDKey_not_index.
  - rewrite FindAll_db. by exists m.
Qed.

(** X26. The index only grows: whatever calls are made, ["orders"] stays a
    set and every member it had is still a member afterwards. *)
Theorem index_only_grows (cs : list call) (m : gset string) (srv : server) :
  index_set (db srv) = Some m →
  ∃ m', index_set (db (after_all cs srv)) = Some m' ∧ m ⊆ m'.
Proof.
  revert m srv. induction cs as [|c cs IH]; intros m srv Hidx; [by exists m|].
  simpl. destruct (after_index_grows c m srv Hidx) as (m1 & Hm1 & Hsub1).
  destruct (IH m1 (after c srv) Hm1) as (m2 & Hm2 & Hsub2).
  exists m2. split; [done|]. by etrans.
Qed.

End CallFacts.

(** ** The further properties on concrete stores *)

Lemma with_ann_typed : well_typed (db Sample.with_ann).
Proof.
  split.
  - intros id v. simpl.
    rewrite lookup_insert_ne by (symmetry; apply orderIDKey_not_index).
    destruct (decide (id = 7%N)) as [->|Hid].
    + intros [= <-]. by eexists.
    + rewrite lookup_insert_ne, lookup_empty; [done|].
      intros Hk. apply Hid. symmetry. by apply orderIDKey_inj.
  - exists {[ "order:7" ]}. split; [done|].
    intros k ->%elem_of_singleton. by exists 7%N.
Qed.

(** X5 on the empty store: [ann] is inserted. *)
Lemma Insert_fresh_witness :
  link_up Sample.fresh ∧
  @Insert OrderJSON.model Sample.ann Sample.fresh = (None, Sample.with_ann).
Proof.
  split; [reflexivity|].
  exact (@Insert_fresh OrderJSON.model Sample.ann (OrderJSON.encode Sample.ann)
           ∅ Sample.fresh eq_refl eq_refl eq_refl eq_refl).
Defined.

(** X6 on the empty store: [ann] is inserted and found. *)
Lemma Insert_then_FindByID_witness :
  link_up2 Sample.fresh ∧
  (@FindByID OrderJSON.model 7
     (@Insert OrderJSON.model Sample.ann Sample.fresh).2).1 = (Sample.ann, None).
Proof.
  assert (link_up2 Sample.fresh) as Hup by (split; reflexivity).
  split; [exact Hup|].
  exact (proj1 (proj2
    (@Insert_then_FindByID OrderJSON.model Sample.ann
       (OrderJSON.encode Sample.ann) ∅ Sample.fresh Hup eq_refl eq_refl
       eq_refl eq_refl))).
Defined.

(** X7 on the store that holds [ann]: [Insert] of [bob] leaves the blob of
    [ann]. *)
Lemma Insert_never_overwrites_witness :
  db Sample.with_ann !! "order:7" = Some (RString (OrderJSON.encode Sample.ann)) ∧
  db (@Insert OrderJSON.model Sample.bob Sample.with_ann).2 !! "order:7" =
    Some (RString (OrderJSON.encode Sample.ann)).
Proof.
  split; [reflexivity|].
  apply (@Insert_never_overwrites OrderJSON.model Sample.bob "order:7").
  - intros Heq. discriminate Heq.
  - reflexivity.
Defined.

(** X8 on the store that holds [ann]. *)
Lemma Insert_stored_unchanged_witness :
  index_set (db Sample.with_ann) = Some {[ "order:7" ]} ∧
  db (@Insert OrderJSON.model Sample.bob Sample.with_ann).2 = db Sample.with_ann.
Proof.
  split; [reflexivity|].
  apply (@Insert_stored_unchanged OrderJSON.model Sample.bob
           (RString (OrderJSON.encode Sample.ann)) {[ "order:7" ]}).
  - reflexivity.
  - reflexivity.
  - by apply elem_of_singleton.
Defined.

(** X10 on the store in which ["orders"] holds a string. *)
Lemma Insert_mistyped_index_witness :
  db Sample2.mistyped !! "orders" = Some (RString "none") ∧
  (@Insert OrderJSON.model Sample.ann Sample2.mistyped).1 =
    Some (Errorf "failed to execute transaction" (RedisError WRONGTYPE)) ∧
  db (@Insert OrderJSON.model Sample.ann Sample2.mistyped).2 !! "order:7" =
    Some (RString (OrderJSON.encode Sample.ann)).
Proof.
  split; [reflexivity|].
  rewrite (@Insert_mistyped_index OrderJSON.model Sample.ann
             (OrderJSON.encode Sample.ann) "none" Sample2.mistyped
             eq_refl eq_refl eq_refl eq_refl).
  split; reflexivity.
Defined.

(** X11 on the empty store behind a link that loses the reply. *)
Lemma Insert_reply_lost_witness :
  head (net Sample2.lossy) = Some DropReply ∧
  (@Insert OrderJSON.model Sample.ann Sample2.lossy).1 =
    Some (Errorf "failed to execute transaction" NetError) ∧
  db (@Insert OrderJSON.model Sample.ann Sample2.lossy).2 = db Sample.with_ann.
Proof.
  split; [reflexivity|].
  rewrite (@Insert_reply_lost OrderJSON.model Sample.ann
             (OrderJSON.encode Sample.ann) ∅ Sample2.lossy
             eq_refl eq_refl eq_refl eq_refl).
  split; reflexivity.
Defined.

(** X12 on the store that holds [ann]: [bob] replaces it. *)
Lemma Update_then_FindByID_witness :
  link_up2 Sample.with_ann ∧
  (@Update OrderJSON.model Sample.bob Sample.with_ann).1 = None ∧
  (@FindByID OrderJSON.model 7
     (@Update OrderJSON.model Sample.bob Sample.with_ann).2).1 =
    (Sample.bob, None).
Proof.
  assert (link_up2 Sample.with_ann) as Hup by (split; reflexivity).
  split; [exact Hup|].
  pose proof (@Update_then_FindByID OrderJSON.model Sample.bob
                (OrderJSON.encode Sample.bob)
                (RString (OrderJSON.encode Sample.ann)) Sample.with_ann
                Hup eq_refl eq_refl eq_refl) as (Hnil & _ & Hfind).
  split; [exact Hnil|exact Hfind].
Defined.

(** X15 on the store that holds [ann]. *)
Lemma FindAll_lists_witness :
  link_up2 Sample.with_ann ∧
  (@FindAll OrderJSON.model (MkFindAllPage 10 0) Sample.with_ann).1 =
    Returns (@MkFindResult OrderJSON.model [Sample.ann] 0, None).
Proof.
  assert (link_up2 Sample.with_ann) as Hup by (split; reflexivity).
  split; [exact Hup|].
  apply (@FindAll_lists OrderJSON.model (MkFindAllPage 10 0) Sample.with_ann
           ["order:7"] 0%N [Sample.ann] Hup).
  - reflexivity.
  - intros Heq. discriminate Heq.
  - constructor; [|constructor].
    exists (OrderJSON.encode Sample.ann). split; reflexivity.
Defined.

(** X16 on the store that holds [ann]: the listed order is stored under a
    member of the index. *)
Lemma FindAll_sound_witness :
  (@FindAll OrderJSON.model (MkFindAllPage 10 0) Sample.with_ann).1 =
    Returns (@MkFindResult OrderJSON.model [Sample.ann] 0, None) ∧
  ∃ m k blob,
    db Sample.with_ann !! "orders" = Some (RSet m) ∧ k ∈ m ∧
    db Sample.with_ann !! k = Some (RString blob) ∧
    @json_Unmarshal OrderJSON.model blob = inl Sample.ann.
Proof.
  split; [reflexivity|].
  apply (@FindAll_sound OrderJSON.model (MkFindAllPage 10 0) Sample.with_ann
           (@MkFindResult OrderJSON.model [Sample.ann] 0) Sample.ann).
  - reflexivity.
  - by apply list_elem_of_singleton.
Defined.

(** X18 for the page size [2 ^ 63]. *)
Lemma FindAll_size_out_of_range_witness :
  (2 ^ 63 ≤ 2 ^ 63 < 2 ^ 64)%N ∧
  @FindAll OrderJSON.model (MkFindAllPage (2 ^ 63) 0) Sample.with_ann =
    @FindAll OrderJSON.model (MkFindAllPage 0 0) Sample.with_ann.
Proof.
  assert (2 ^ 63 ≤ 2 ^ 63 < 2 ^ 64)%N as Hsize by (split; [reflexivity|lia]).
  split; [exact Hsize|].
  apply (@FindAll_size_out_of_range OrderJSON.model
           (MkFindAllPage (2 ^ 63) 0) Sample.with_ann).
  right. exact Hsize.
Defined.

(** X20 on the store behind a link that loses the request. *)
Lemma reads_link_down_witness :
  ¬ link_up Sample2.offline ∧
  (@FindByID OrderJSON.model 7 Sample2.offline).1 =
    (@Order_zero OrderJSON.model,
     Some (Errorf "failed to get order" NetError)) ∧
  (@FindAll OrderJSON.model (MkFindAllPage 10 0) Sample2.offline).1 =
    Returns (@FindResult_zero OrderJSON.model,
             Some (Errorf "failed to get order IDs" NetError)).
Proof.
  assert (¬ link_up Sample2.offline) as Hdown.
  { intros Hup. discriminate Hup. }
  split; [exact Hdown|].
  pose proof (@reads_link_down OrderJSON.model Sample2.offline Hdown)
    as (Hfind & Hall & _).
  split; [apply Hfind|apply Hall].
Defined.

(** X22 on the store that holds [ann]. *)
Lemma well_typed_preserved_witness :
  well_typed (db Sample.with_ann) ∧
  well_typed
    (db (@after OrderJSON.model (@CallInsert OrderJSON.model Sample2.cat) Sample.with_ann)).
Proof.
  split; [apply with_ann_typed|].
  apply (@well_typed_preserved OrderJSON.model), with_ann_typed.
Defined.

(** X23 on the store that holds [ann]. *)
Lemma FindAll_no_panic_witness :
  dual_structure (db Sample.with_ann) ∧ well_typed (db Sample.with_ann) ∧
  (@FindAll OrderJSON.model (MkFindAllPage 10 0) Sample.with_ann).1 ≠
    Panics "interface conversion: interface {} is nil, not string".
Proof.
  split; [apply with_ann_dual|]. split; [apply with_ann_typed|].
  apply (@FindAll_no_panic OrderJSON.model);
    [apply with_ann_dual|apply with_ann_typed].
Defined.

(** X24 for three calls on the empty store. *)
Lemma calls_from_empty_store_witness :
  db Sample.fresh = ∅ ∧
  dual_structure
    (db (@after_all OrderJSON.model
           [@CallInsert OrderJSON.model Sample.ann; @CallDeleteByID OrderJSON.model 7; @CallUpdate OrderJSON.model Sample.bob]
           Sample.fresh)).
Proof.
  split; [reflexivity|].
  apply (@calls_from_empty_store OrderJSON.model
           [@CallInsert OrderJSON.model Sample.ann; @CallDeleteByID OrderJSON.model 7; @CallUpdate OrderJSON.model Sample.bob]
           Sample.fresh).
  reflexivity.
Defined.

(** X25 on the store that holds [ann]: [DeleteByID] and [Insert] of [bob]
    leave the blob of [ann]. *)
Lemma entry_survives_witness :
  db Sample.with_ann !! "order:7" = Some (RString (OrderJSON.encode Sample.ann)) ∧
  db (@after_all OrderJSON.model [@CallDeleteByID OrderJSON.model 7; @CallInsert OrderJSON.model Sample.bob]
        Sample.with_ann) !! "order:7" =
    Some (RString (OrderJSON.encode Sample.ann)).
Proof.
  split; [reflexivity|].
  apply (@entry_survives OrderJSON.model).
  - intros Heq. discriminate Heq.
  - reflexivity.
  - repeat constructor; intros Hupd; exact Hupd.
Defined.

(** X26 on the store that holds [ann]. *)
Lemma index_only_grows_witness :
  index_set (db Sample.with_ann) = Some {[ "order:7" ]} ∧
  ∃ m', index_set
          (db (@after_all OrderJSON.model
                 [@CallDeleteByID OrderJSON.model 7; @CallInsert OrderJSON.model Sample2.cat] Sample.with_ann)) =
          Some m' ∧ {[ "order:7" ]} ⊆ m'.
Proof.
  split; [reflexivity|].
  apply (@index_only_grows OrderJSON.model). reflexivity.
Defined.
